(** * total-serialism, gen-complex.js: sequence generators

    A shallow embedding of the generators of [src/gen-complex.js] that the
    specification talks about: the n-bonacci recurrence engine, the Pisano
    period detector, the two Euclidean rhythm generators and the elementary
    cellular automaton.

    Conventions of the embedding.
    - A JavaScript number that the code uses as a length, a counter, a step
      count or a cell is an integer of [Z]; the binary64 rounding of such
      numbers is written out only where the code leaves the integers
      ([BigNumber.toNumber] on large values, the quotient [h / s] of
      [fastEuclid]).
    - A [BigNumber] built from an integer and combined with [times], [plus]
      and [mod] is an exact integer of [Z]; [mod] keeps the sign of the
      dividend ([Z.rem]), as JavaScript's [%] does.
    - Arrays are lists, read with stdpp's lookup; an object used as a lookup
      table is a [gmap] from strings.
    - Loops that the code bounds by a counter are structural recursions on
      that bound; the unbounded ones take fuel and return [None] when it
      runs out. *)

From Stdlib Require Import ZArith Ascii String DecimalString SpecFloat.
From stdpp Require Import gmap strings list fin_maps.

Open Scope Z_scope.

(** ** JavaScript array and loop primitives *)

(** [Array.prototype.slice(start, end)]: negative bounds count from the end,
    both bounds are clamped to the length. *)
Definition slice {A} (a : list A) (start stop : Z) : list A :=
  let len := Z.of_nat (length a) in
  let k := if start <? 0 then Z.max (len + start) 0 else Z.min start len in
  let final := if stop <? 0 then Z.max (len + stop) 0 else Z.min stop len in
  take (Z.to_nat (final - k)) (drop (Z.to_nat k) a).

(** [for (var i = lo; i < hi; i++) body], for a body that neither writes
    [i] nor leaves the loop early. *)
Fixpoint for_loop {S} (n : nat) (i : Z) (body : Z → S → S) (s : S) : S :=
  match n with
  | O => s
  | Datatypes.S n' => for_loop n' (i + 1) body (body i s)
  end.

Definition for_range {S} (lo hi : Z) (body : Z → S → S) (s : S) : S :=
  for_loop (Z.to_nat (hi - lo)) lo body s.

(** ** Number formatting *)

(** [BigNumber.prototype.toFixed()] of an integer: its decimal digits, in
    normal notation whatever the magnitude. *)
Definition toFixed (x : Z) : string := NilZero.string_of_int (Z.to_int x).

(** The binary64 number nearest to an integer, ties to even, infinite
    beyond the binary64 range. *)
Definition binary64 (x : Z) : spec_float := binary_normalize 53 1024 x 0 false.

(** [BigNumber.prototype.toNumber()] of an integer. *)
Definition toNumber (x : Z) : spec_float := binary64 x.

(** The integer a binary64 number stands for, when it is one. *)
Definition float_to_Z (x : spec_float) : option Z :=
  match x with
  | S754_zero _ => Some 0
  | S754_finite s m e =>
      let v := if s then Z.neg m else Z.pos m in
      if 0 <=? e then Some (v * 2 ^ e)
      else if v mod 2 ^ (- e) =? 0 then Some (v / 2 ^ (- e)) else None
  | _ => None
  end.

(** ** The recurrence engine *)

(** The loop variables of [numBonacci]. *)
Record bonacci := { n1 : Z; n2 : Z; arr : list Z }.

(** One turn of the loop: [Fn = t * Fn-1 + Fn-2]. *)
Definition numBonacci_body (t : Z) (st : bonacci) : bonacci :=
  let cur := n1 st * t + n2 st in
  {| n1 := cur; n2 := n1 st; arr := arr st ++ [cur] |}.

Definition numBonacci (len s1 s2 t : Z) : list Z :=
  let st := {| n1 := s2; n2 := s1; arr := [s1; s2] |} in
  let len := Z.max 1 (len - 2) in
  if len <? 2 then slice (arr st) 0 len
  else arr (for_range 0 len (λ _, numBonacci_body t) st).

(** An element of an exported sequence: a decimal string or a number. *)
Inductive element :=
  | Str (s : string)
  | Num (x : spec_float).

Definition render (toString : bool) (x : Z) : element :=
  if toString then Str (toFixed x) else Num (toNumber x).

Definition nbonacci (len s1 s2 t : Z) (toString : bool) : list element :=
  render toString <$> numBonacci len s1 s2 t.

Definition fibonacci (len offset : Z) (toString : bool) : list element :=
  let f := render toString <$> numBonacci (len + offset) 0 1 1 in
  if 0 <? offset then slice f offset (offset + len) else f.

(** ** The Pisano period detector *)

(** [x.mod(modulus).toNumber()]: the remainder is smaller in magnitude than
    the modulus, so its conversion to a number is exact. *)
Definition reduce (modulus x : Z) : Z := Z.rem x modulus.

(** [equals += p[k] === c[k]] for [k] below [p.length]: the number of
    positions where [p] agrees with [c]. *)
Definition count_equal (p c : list Z) : Z :=
  Z.of_nat (length (filter (λ pc : Z * Z, pc.1 = pc.2) (zip p c))).

(** The scan of [pisanoPeriod]: [todo] holds [seq[i]], [seq[i+1]], ...; the
    result is [None] when the loop ends without returning. *)
Fixpoint pisano_scan (seq todo p : list Z) (l : Z) : option (list Z) :=
  match todo with
  | [] => None
  | x :: todo' =>
      let p := p ++ [x] in
      if (2 <? length p)%nat then
        let c := [0; 1; 1] in
        let equals := count_equal p c in
        if (equals =? 3) && (3 <? l) then Some (slice seq 0 l)
        else pisano_scan seq todo' (slice p 1 3) (l + 1)
      else pisano_scan seq todo' p l
  end.

(** [pisanoPeriod] calls itself with a doubled length until the scan
    returns; [fuel] bounds the number of calls. *)
Fixpoint pisanoPeriod (fuel : nat) (modulus length : Z) : option (list Z) :=
  match fuel with
  | O => None
  | S fuel' =>
      let seq := reduce modulus <$> numBonacci length 0 1 1 in
      match pisano_scan seq seq [] 0 with
      | Some period => Some period
      | None => pisanoPeriod fuel' modulus (length * 2)
      end
  end.

Definition pisano (fuel : nat) (modulus len : Z) : option (list Z) :=
  if modulus <? 2 then Some [0]
  else if len <? 1 then pisanoPeriod fuel modulus 32
  else Some (reduce modulus <$> numBonacci len 0 1 1).

(** ** Array rotation *)

(** Modelled from the spec: [Transform.rotate] of [transform.js], which is
    not among the sources. The specification describes it as a plain
    positional rotation, a cyclic permutation, for which the amount
    [rotate - indexOfFirstOne] brings the first [1] to position [rotate]:
    rotating by [r] moves the element at index [j] to index [j + r], modulo
    the length. *)
Definition rotate {A} (a : list A) (r : Z) : list A :=
  let k := Z.to_nat ((- r) `mod` Z.of_nat (length a)) in
  drop k a ++ take k a.

(** ** The Euclidean rhythm generators *)

(** [a[i]] for a numeric index: [None] stands for [undefined]. *)
Definition get {A} (a : list A) (i : Z) : option A :=
  if i <? 0 then None else a !! Z.to_nat i.

(** [a.indexOf(x)]: the first index holding [x], or [-1]. *)
Fixpoint indexOf (a : list Z) (x : Z) : Z :=
  match a with
  | [] => -1
  | y :: a' =>
      if y =? x then 0
      else let i := indexOf a' x in if i <? 0 then -1 else i + 1
  end.

(** The module-level variables that [euclid] and [build] share. *)
Record globals := { pattern : list Z; counts : list Z; remainders : list Z }.

(** Comparisons against a possibly undefined operand: [x > 1] and [i < x]
    are false, [x != 0] is true when [x] is [undefined]. *)
Definition greater_than_one (x : option Z) : bool :=
  match x with Some r => 1 <? r | None => false end.

Definition loop_bound (x : option Z) : nat :=
  match x with Some c => Z.to_nat c | None => O end.

Definition not_zero (x : option Z) : bool :=
  match x with Some r => negb (r =? 0) | None => true end.

(** The [while] loop of [euclid], with its local variables [level] and
    [divisor]; [None] when the fuel runs out before the loop exits. The
    loop is entered with a remainder above one, for which
    [Math.floor(divisor / r)] is the floor quotient; [%] truncates. *)
Fixpoint euclid_while (fuel : nat) (g : globals) (level divisor : Z)
    : option (globals * Z * Z) :=
  if greater_than_one (get (remainders g) level) then
    match fuel with
    | O => None
    | S fuel' =>
        let r := default 0 (get (remainders g) level) in
        let g' := {| pattern := pattern g;
                     counts := counts g ++ [divisor `div` r];
                     remainders := remainders g ++ [Z.rem divisor r] |} in
        euclid_while fuel' g' (level + 1) r
    end
  else Some (g, level, divisor).

(** [n] calls of [f] in a row, each of which may fail. *)
Fixpoint repeat_call {S} (n : nat) (f : S → option S) (s : S) : option S :=
  match n with
  | O => Some s
  | Datatypes.S n' => s' ← f s; repeat_call n' f s'
  end.

Definition push (x : Z) (g : globals) : globals :=
  {| pattern := pattern g ++ [x]; counts := counts g;
     remainders := remainders g |}.

(** [build], with [fuel] bounding the depth of the recursion. *)
Fixpoint build (fuel : nat) (l : Z) (g : globals) : option globals :=
  match fuel with
  | O => None
  | S fuel' =>
      let level := l in
      if level =? -1 then Some (push 0 g)
      else if level =? -2 then Some (push 1 g)
      else
        g' ← repeat_call (loop_bound (get (counts g) level))
               (build fuel' (level - 1)) g;
        if not_zero (get (remainders g') level)
        then build fuel' (level - 2) g'
        else Some g'
  end.

(** The loop runs while the remainder exceeds one and the remainders
    decrease, so [beats] turns are enough; [build] descends from [level] to
    [-2]. *)
Definition euclid (steps beats rot : Z) : option (list Z) :=
  let g := {| pattern := []; counts := []; remainders := [] |} in
  let level := 0 in
  let divisor := steps - beats in
  let g := {| pattern := pattern g; counts := counts g;
              remainders := remainders g ++ [beats] |} in
  '(g, level, divisor) ← euclid_while (Z.to_nat beats) g level divisor;
  let g := {| pattern := pattern g; counts := counts g ++ [divisor];
              remainders := remainders g |} in
  g ← build (Z.to_nat (level + 3)) level g;
  Some (rotate (pattern g) (rot - indexOf (pattern g) 1)).

(** The value of [Math.floor]: an integer, an infinity or NaN. *)
Inductive floored :=
  | Integer (z : Z)
  | Infinite (negative : bool)
  | NotANumber.

Definition Math_floor (x : spec_float) : floored :=
  match x with
  | S754_zero _ => Integer 0
  | S754_infinity s => Infinite s
  | S754_nan => NotANumber
  | S754_finite s m e =>
      let v := if s then Z.neg m else Z.pos m in
      Integer (if 0 <=? e then v * 2 ^ e else v `div` 2 ^ (- e))
  end.

(** [v !== d] on numbers: NaN differs from everything, itself included. *)
Definition strict_differs (v d : floored) : bool :=
  match v, d with
  | Integer x, Integer y => negb (x =? y)
  | Infinite s, Infinite s' => negb (Bool.eqb s s')
  | _, _ => true
  end.

(** [fastEuclid]: [h / s] and [i * (h / s)] are binary64 operations. *)
Definition fastEuclid (s h r : Z) : list Z :=
  let body (i : Z) (st : list Z * floored) :=
    let '(arr, d) := st in
    let v := Math_floor (SFmul 53 1024 (binary64 i)
                           (SFdiv 53 1024 (binary64 h) (binary64 s))) in
    (arr ++ [if strict_differs v d then 1 else 0], v) in
  let '(arr, d) := for_range 0 s body ([], Integer (-1)) in
  if negb (r =? 0) then rotate arr r else arr.

(** ** The elementary cellular automaton *)

Module Automaton.

(** The values that cells, rule arguments and table entries range over:
    integer numbers, NaN and [undefined]. *)
Inductive value :=
  | VNum (z : Z)
  | VNaN
  | VUndefined.

(** What [rule] and [feed] can be called with: an array
    ([Array.isArray]), a plain object with string keys
    ([typeof a === 'object']), or one of the values above. *)
Inductive argument :=
  | AArray (a : list value)
  | AObject (o : gmap string value)
  | AValue (v : value).

(** What the console receives: the first argument of each call. *)
Inductive console :=
  | console_log (msg : string)
  | console_error (msg : string).

(** [Number(v)]. *)
Definition Number (v : value) : value :=
  match v with
  | VNum z => VNum z
  | VNaN => VNaN
  | VUndefined => VNaN
  end.


(** The digits of [n.toString(2)], most significant first. *)
Fixpoint binary_digits (p : positive) : string :=
  match p with
  | xH => "1"
  | xO p' => binary_digits p' +:+ "0"
  | xI p' => binary_digits p' +:+ "1"
  end.

(** [n.toString(2)] for an integer. *)
Definition toString2 (n : Z) : string :=
  match n with
  | Z0 => "0"
  | Zpos p => binary_digits p
  | Zneg p => "-" +:+ binary_digits p
  end.

(** [s.padStart(n, '0')]. *)
Definition padStart (n : nat) (s : string) : string :=
  String.string_of_list_ascii (replicate (n - String.length s) "0"%char) +:+ s.

(** The string an array element contributes to [join]: nothing for
    [undefined], the decimal digits for an integer (below 10^21 in
    magnitude, where JavaScript switches to exponent notation). *)
Definition element_string (v : value) : string :=
  match v with
  | VNum z => toFixed z
  | VNaN => "NaN"
  | VUndefined => ""
  end.

(** [a.join('')]. *)
Definition join (a : list value) : string :=
  foldr (λ v s, element_string v +:+ s) "" a.

(** [Number(r[i])] for [r] a string or an array of characters: a digit
    gives its value, white space gives zero, any other character and a
    missing one give NaN. *)
Definition char_number (c : option ascii) : value :=
  match c with
  | None => VNaN
  | Some c =>
      let n := nat_of_ascii c in
      if (48 <=? n)%nat && (n <=? 57)%nat then VNum (Z.of_nat (n - 48))
      else if (n =? 32)%nat || ((9 <=? n)%nat && (n <=? 13)%nat) then VNum 0
      else VNaN
  end.

(** The [_rule] field: the characters of the binary representation, or
    the argument of the last numeric [rule] call, or [undefined]. *)
Inductive rule_field :=
  | RChars (r : list ascii)
  | RValue (v : value).

Record automaton := {
  _length : Z;
  _state : list value;
  _rule : rule_field;
  _table : gmap string value
}.

Definition ruleToBinary (r : Z) : string := padStart 8 (toString2 r).

Definition binaryToTable (r : list ascii) : gmap string value :=
  for_range 0 8
    (λ i c, <[padStart 3 (toString2 (7 - i)) := char_number (get r i)]> c)
    ∅.

(** [new Automaton(l, r)]. *)
Definition constructor (l r : Z) : automaton :=
  let length := Z.max 3 l in
  let rule := String.list_ascii_of_string (ruleToBinary r) in
  {| _length := length;
     _state := replicate (Z.to_nat length) (VNum 0);
     _rule := RChars rule;
     _table := binaryToTable rule |}.

Definition state (this : automaton) : list value := _state this.
Definition table (this : automaton) : gmap string value := _table this.

Definition rule (a : argument) (this : automaton)
    : automaton * list console :=
  match a with
  | AArray a =>
      let out :=
        if decide (length a = 8%nat) then []
        else [console_log "Warning: rule() must have length 8 to correctly represent all possible states"] in
      let r := padStart 8 (join (slice a 0 8)) in
      ({| _length := _length this; _state := _state this;
          _rule := _rule this;
          _table := binaryToTable (String.list_ascii_of_string r) |}, out)
  | AObject o =>
      let out :=
        if decide (size o = 8%nat) then []
        else [console_log "Warning: rule() must have 8 keys to correctly represent all possible states"] in
      ({| _length := _length this; _state := _state this;
          _rule := RValue VUndefined;
          _table := o |}, out)
  | AValue v =>
      match Number v with
      | VNum n =>
          let b := ruleToBinary n in
          ({| _length := _length this; _state := _state this;
              _rule := RValue v;
              _table := binaryToTable (String.list_ascii_of_string b) |}, [])
      | _ =>
          (this, [console_error "Error: rule() expected a number but received:"])
      end
  end.

Definition feed (a : argument) (this : automaton)
    : automaton * list console :=
  match a with
  | AArray a =>
      if (Z.of_nat (length a) <? 3) then
        (this, [console_log "Warning: feed() expected array of at least length 3 but received:"])
      else
        ({| _length := Z.of_nat (length a); _state := a;
            _rule := _rule this; _table := _table this |}, [])
  | _ =>
      (this, [console_log "Warning: feed() expected array of at least length 3 but received:"])
  end.

(** A cell of the state, [undefined] out of range. *)
Definition cell (this : automaton) (i : Z) : value :=
  default VUndefined (get (_state this) i).

(** [next()] returns the array it stores. In [(i-1 % l)] the remainder
    binds tighter than the subtraction. *)
Definition next (this : automaton) : automaton * list value :=
  let l := _length this in
  let body (i : Z) (n : list value) :=
    let left := cell this (Z.rem ((i - Z.rem 1 l) + l) l) in
    let right := cell this (Z.rem ((i + Z.rem 1 l) + l) l) in
    n ++ [default VUndefined
            (_table this !! join [left; cell this i; right])] in
  let n := for_range 0 l body [] in
  ({| _length := _length this; _state := n;
      _rule := _rule this; _table := _table this |}, n).

(** A method call on an automaton, and a sequence of them. *)
Inductive call :=
  | call_rule (a : argument)
  | call_feed (a : argument)
  | call_next.

Definition perform (c : call) (this : automaton) : automaton :=
  match c with
  | call_rule a => (rule a this).1
  | call_feed a => (feed a this).1
  | call_next => (next this).1
  end.

Definition run (cs : list call) (this : automaton) : automaton :=
  foldl (λ this c, perform c this) this cs.

End Automaton.

(** ** The hexadecimal rhythm *)

(** [parseInt("0x" + c)] for a character [c]: the value of a hexadecimal
    digit of either case, [None] (NaN) for any other character. *)
Definition hex_value (c : ascii) : option Z :=
  let n := nat_of_ascii c in
  if (48 <=? n)%nat && (n <=? 57)%nat then Some (Z.of_nat (n - 48))
  else if (65 <=? n)%nat && (n <=? 70)%nat then Some (Z.of_nat (n - 55))
  else if (97 <=? n)%nat && (n <=? 102)%nat then Some (Z.of_nat (n - 87))
  else None.

(** The four numbers that one character of [hex] contributes: the binary
    digits of its value, ["0000"] when it is no hexadecimal digit. *)
Definition hexBeat_char (c : ascii) : list Automaton.value :=
  let binary :=
    match hex_value c with
    | Some v => Automaton.toString2 v
    | None => "0000"
    end in
  let padding := Automaton.padStart 4 binary in
  (λ x, Automaton.char_number (Some x)) <$> String.list_ascii_of_string padding.

(** [hexBeat], for a string of one-byte characters. *)
Definition hexBeat (hex : string) : list Automaton.value :=
  foldl (λ a c, a ++ hexBeat_char c) [] (String.list_ascii_of_string hex).

(** ** The Collatz walkers *)

(** The [while] loop of [collatz]; [None] when the fuel runs out. *)
Fixpoint collatz_while (fuel : nat) (n : Z) (sequence : list Z)
    : option (list Z) :=
  if n =? 1 then Some sequence
  else
    match fuel with
    | O => None
    | S fuel' =>
        let n := if negb (Z.rem n 2 =? 0) then n * 3 + 1 else n `div` 2 in
        collatz_while fuel' n (sequence ++ [n])
    end.

Definition collatz (fuel : nat) (n : Z) : option (list Z) :=
  let n := Z.max 2 n in
  sequence ← collatz_while fuel n [];
  Some (reverse sequence).

(** The loop of [bigCollatz], on exact integers. *)
Fixpoint bigCollatz_while (fuel : nat) (num : Z) (sequence : list string)
    : option (list string) :=
  if 1 <? num then
    match fuel with
    | O => None
    | S fuel' =>
        let num := if Z.rem num 2 =? 1 then num * 3 + 1 else num `div` 2 in
        bigCollatz_while fuel' num (sequence ++ [toFixed num])
    end
  else Some sequence.

Definition bigCollatz (fuel : nat) (n : Z) : option (list string) :=
  sequence ← bigCollatz_while fuel n [];
  Some (reverse sequence).

(** ** Lindenmayer expansion *)

(** One generation of [linden] for an axiom that is an array of integers
    and rules that map to arrays of integers: a symbol with a rule is
    replaced by it, any other symbol is kept. The property name of a
    symbol is its decimal string. *)
Definition linden_generation (rules : gmap string (list Z)) (axiom : list Z)
    : list Z :=
  foldl (λ res char,
           match rules !! toFixed char with
           | Some rule => res ++ rule
           | None => res ++ [char]
           end) [] axiom.

(** [linden] on arrays; [None] is [undefined], the value of [res] when the
    loop does not run. *)
Definition linden (axiom : list Z) (iteration : Z)
    (rules : gmap string (list Z)) : option (list Z) :=
  snd (for_range 0 iteration
         (λ _ (st : list Z * option (list Z)),
            let res := linden_generation rules st.1 in
            (res, Some res))
         (axiom, None)).

(** The default rules: 1 gives 1, 0 and 0 gives 1. *)
Definition linden_rules : gmap string (list Z) :=
  <["1" := [1; 0]]> (<["0" := [1]]> ∅).

(** ** The infinity series *)

(** [norgardInteger]: over the binary digits of [index], a 1 adds one and
    any other character changes the sign. *)
Definition norgardInteger (index : Z) : Z :=
  foldl (λ integer digit,
           if Ascii.eqb digit "1" then integer + 1 else integer * -1)
        0 (String.list_ascii_of_string (Automaton.toString2 index)).

(** [infinitySeries], for a seed of two integers; [None] when
    [new Array(size)] throws a RangeError. *)
Definition infinitySeries (seed : Z * Z) (size offset : Z) : option (list Z) :=
  let root := seed.1 in
  let step1 := seed.2 in
  let seedInterval := step1 - root in
  if (size <? 0) || (2 ^ 32 <=? size) then None
  else
    Some ((λ step, root + norgardInteger step * seedInterval)
            <$> ((λ i, Z.of_nat i + offset) <$> seq 0 (Z.to_nat size))).

(** ** The named recurrences *)

Definition pell (len offset : Z) (toString : bool) : list element :=
  let f := render toString <$> numBonacci (len + offset) 0 1 2 in
  if 0 <? offset then slice f offset (offset + len) else f.

Definition threeFibonacci (len offset : Z) (toString : bool) : list element :=
  let f := render toString <$> numBonacci (len + offset) 0 1 3 in
  if 0 <? offset then slice f offset (offset + len) else f.

Definition lucas (len offset : Z) (toString : bool) : list element :=
  let f := render toString <$> numBonacci (len + offset) 2 1 1 in
  if 0 <? offset then slice f offset (offset + len) else f.

(** ** Properties the theorems are stated with *)

(** Every element from the third on is [t] times its predecessor plus the
    element before that. *)
Definition follows_recurrence (t : Z) (l : list Z) : Prop :=
  ∀ (i : nat) (x y z : Z),
    l !! i = Some x → l !! (i + 1)%nat = Some y → l !! (i + 2)%nat = Some z →
    z = t * y + x.

(** The first two elements of [l], as far as [l] has them, are those of
    [seeds]. *)
Definition starts_with (seeds l : list Z) : Prop :=
  take 2 l = take (length l) seeds.

(** The reference sequence [F(0) = s1], [F(1) = s2],
    [F(n) = t * F(n-1) + F(n-2)]. *)
Fixpoint recurrence_term (t s1 s2 : Z) (n : nat) : Z :=
  match n with
  | O => s1
  | S m =>
      match m with
      | O => s2
      | S k => t * recurrence_term t s1 s2 m + recurrence_term t s1 s2 k
      end
  end.

(** The Fibonacci numbers, [F(0) = 0] and [F(1) = 1]. *)
Definition fibonacci_number (n : nat) : Z := recurrence_term 1 0 1 n.

(** The sequence of Fibonacci numbers modulo [m] restarts at position [n]:
    it reads 0, 1 there. *)
Definition restarts (m : Z) (n : nat) : bool :=
  (fibonacci_number n `mod` m =? 0) && (fibonacci_number (S n) `mod` m =? 1).

(** [n] is the Pisano period of [m] (OEIS A001175): the first position
    after 0 where the sequence modulo [m] restarts. *)
Definition pisano_period_of (m : Z) (n : nat) : Prop :=
  (0 < n)%nat ∧ restarts m n = true
  ∧ Forall (λ k, restarts m k = false) (seq 1 (n - 1)).

(** The number of elements of [l] equal to [x]. *)
Definition occurrences (x : Z) (l : list Z) : nat :=
  length (filter (λ y, y = x) l).

(** What [build(level)] appends to the pattern, for [n = level + 2]: a
    single 1 for level -2, a single 0 for level -1, and above that
    [counts[level]] copies of the expansion one level down followed, when
    [remainders[level]] is not zero, by the expansion two levels down. *)
Fixpoint expand (C R : list Z) (n : nat) : list Z :=
  match n with
  | O => [1]
  | S m =>
      match m with
      | O => [0]
      | S k =>
          concat (replicate (loop_bound (C !! k)) (expand C R m))
          ++ (if not_zero (R !! k) then expand C R k else [])
      end
  end.

(** The globals after [l] has been pushed onto the pattern. *)
Definition extend (g : globals) (l : list Z) : globals :=
  {| pattern := pattern g ++ l; counts := counts g;
     remainders := remainders g |}.

(** A measure of lists that adds up over concatenation: the length, the
    number of ones, the number of zeros. *)
Definition additive (μ : list Z → Z) : Prop :=
  ∀ a b, μ (a ++ b) = μ a + μ b.

(** The invariant of the [while] loop of [euclid steps beats], at level [k]
    with divisor [d]: the ladder has [k] counts and [k + 1] remainders, and
    [d] copies of the expansion one level down together with
    [remainders[k]] copies of the expansion two levels down hold
    [steps - beats] zeros and [beats] ones. *)
Definition ladder_inv (steps beats : Z) (g : globals) (k : nat) (d : Z)
    : Prop :=
  length (counts g) = k ∧ length (remainders g) = S k
  ∧ ∃ r, remainders g !! k = Some r ∧ 0 ≤ d ∧ 0 ≤ r
      ∧ ∀ μ, additive μ →
          d * μ (expand (counts g) (remainders g) (S k))
          + r * μ (expand (counts g) (remainders g) k)
          = (steps - beats) * μ [0] + beats * μ [1].

(** The eight neighborhoods of a cell. *)
Definition neighborhoods : list string :=
  ["000"; "001"; "010"; "011"; "100"; "101"; "110"; "111"].

(** A single bit, as a value and as a character. *)
Definition is_bit (v : Automaton.value) : Prop :=
  v = Automaton.VNum 0 ∨ v = Automaton.VNum 1.

Definition bit_char (c : ascii) : Prop := c = "0"%char ∨ c = "1"%char.

(** The table has an entry for each of the eight neighborhoods and no
    other entry. *)
Definition eight_keys (T : gmap string Automaton.value) : Prop :=
  size T = 8%nat ∧ Forall (λ k, is_Some (T !! k)) neighborhoods.

(** The table has exactly eight entries, one for each neighborhood, each
    of them a single bit. *)
Definition full_table (T : gmap string Automaton.value) : Prop :=
  size T = 8%nat
  ∧ Forall (λ k, ∃ v, T !! k = Some v ∧ is_bit v) neighborhoods.

(** The stored state has the stored length, which is at least 3. *)
Definition consistent (this : Automaton.automaton) : Prop :=
  length (Automaton._state this) = Z.to_nat (Automaton._length this)
  ∧ 3 ≤ Automaton._length this.

(** The sequence [seq] reads 0, 1, 1 from position [j] on. *)
Definition restart_at (seq : list Z) (j : nat) : Prop :=
  seq !! j = Some 0 ∧ seq !! (j + 1)%nat = Some 1 ∧ seq !! (j + 2)%nat = Some 1.

(** The Fibonacci numbers reduced by [modulus] read 0, 1, 1 from position
    [j] on. *)
Definition fibonacci_restart (modulus : Z) (j : nat) : Prop :=
  Z.rem (fibonacci_number j) modulus = 0
  ∧ Z.rem (fibonacci_number (j + 1)) modulus = 1
  ∧ Z.rem (fibonacci_number (j + 2)) modulus = 1.

(** A rhythm value: 0 or 1. *)
Definition binary (x : Z) : Prop := x = 0 ∨ x = 1.

(** The number that a list of bits spells in binary, most significant bit
    first. *)
Definition binary_value (bits : list Automaton.value) : Z :=
  foldl (λ acc v,
           2 * acc + match v with Automaton.VNum z => z | _ => 0 end)
        0 bits.

(** The successor of [n] in the Collatz walk. *)
Definition collatz_next (n : Z) : Z :=
  if Z.even n then n `div` 2 else 3 * n + 1.

(** [l] lists the successive Collatz successors of [n]. *)
Fixpoint collatz_walk (n : Z) (l : list Z) : Prop :=
  match l with
  | [] => True
  | x :: l' => x = collatz_next n ∧ collatz_walk x l'
  end.

(** What one generation puts in place of a symbol: its rule, or the
    symbol itself when it has none. *)
Definition linden_symbol (rules : gmap string (list Z)) (char : Z) : list Z :=
  match rules !! toFixed char with
  | Some rule => rule
  | None => [char]
  end.

(** ** The recurrence engine: proofs *)

Section Recurrence.

Variables t s1 s2 : Z.

Local Abbreviation F := (recurrence_term t s1 s2).

Lemma recurrence_term_step (k : nat) :
  F (S (S k)) = t * F (S k) + F k.
Proof. reflexivity. Qed.

(** The loop extends a prefix of the reference sequence by one term per
    turn. *)
Lemma numBonacci_loop (n : nat) :
  ∀ (i : Z) (k : nat) (st : bonacci),
    arr st = F <$> seq 0 (S (S k)) →
    n1 st = F (S k) →
    n2 st = F k →
    arr (for_loop n i (λ _, numBonacci_body t) st)
    = F <$> seq 0 (S (S k) + n).
Proof.
  induction n as [|n IH]; intros i k st Harr H1 H2.
  - simpl. by rewrite Nat.add_0_r.
  - cbn [for_loop].
    rewrite (IH (i + 1) (S k) (numBonacci_body t st)).
    + f_equal. f_equal. lia.
    + unfold numBonacci_body. cbn [arr].
      rewrite (seq_S (S (S k))), fmap_app, <- Harr, H1, H2.
      cbn [fmap list_fmap Nat.add]. rewrite recurrence_term_step.
      do 2 f_equal. lia.
    + unfold numBonacci_body. cbn [n1].
      rewrite H1, H2, recurrence_term_step. lia.
    + unfold numBonacci_body. cbn [n2]. exact H1.
Qed.

Lemma numBonacci_short (len : Z) :
  len ≤ 3 → numBonacci len s1 s2 t = [s1].
Proof.
  intros Hlen. unfold numBonacci.
  replace (Z.max 1 (len - 2)) with 1 by lia. reflexivity.
Qed.

Lemma numBonacci_long (len : Z) :
  4 ≤ len → numBonacci len s1 s2 t = F <$> seq 0 (Z.to_nat len).
Proof.
  intros Hlen. unfold numBonacci.
  replace (Z.max 1 (len - 2)) with (len - 2) by lia.
  destruct (Z.ltb_spec (len - 2) 2) as [?|_]; [lia|].
  unfold for_range.
  rewrite (numBonacci_loop _ 0 0%nat) by reflexivity.
  f_equal. f_equal. lia.
Qed.

Lemma reference_follows_recurrence (n : nat) :
  follows_recurrence t (F <$> seq 0 n).
Proof.
  intros i x y z Hx Hy Hz.
  rewrite list_lookup_fmap in Hx, Hy, Hz.
  destruct (seq 0 n !! i) as [a|] eqn:Ha; [|done].
  destruct (seq 0 n !! (i + 1)%nat) as [b|] eqn:Hb; [|done].
  destruct (seq 0 n !! (i + 2)%nat) as [c|] eqn:Hc; [|done].
  apply lookup_seq in Ha as [-> _], Hb as [-> _], Hc as [-> _].
  simpl in Hx, Hy, Hz. simplify_eq.
  replace (i + 2)%nat with (S (S i)) by lia.
  replace (i + 1)%nat with (S i) by lia.
  by rewrite recurrence_term_step.
Qed.

Lemma numBonacci_follows_recurrence (len : Z) :
  follows_recurrence t (numBonacci len s1 s2 t).
Proof.
  destruct (Z.le_gt_cases len 3) as [Hlen|Hlen].
  - rewrite numBonacci_short by done.
    intros [|i] x y z Hx Hy Hz; simpl in *; done.
  - rewrite numBonacci_long by lia. apply reference_follows_recurrence.
Qed.

Lemma numBonacci_starts_with (len : Z) :
  starts_with [s1; s2] (numBonacci len s1 s2 t).
Proof.
  destruct (Z.le_gt_cases len 3) as [Hlen|Hlen].
  - by rewrite numBonacci_short.
  - rewrite numBonacci_long by lia.
    destruct (Z.to_nat len) as [|[|[|n]]] eqn:Hn; try lia.
    reflexivity.
Qed.

Lemma numBonacci_length (len : Z) :
  len ≤ 1 ∨ 4 ≤ len →
  length (numBonacci len s1 s2 t) = Z.to_nat (Z.max len 1).
Proof.
  intros [Hlen|Hlen].
  - rewrite numBonacci_short by lia. simpl. lia.
  - rewrite numBonacci_long by lia.
    rewrite length_fmap, length_seq. lia.
Qed.

End Recurrence.

(** C1 (as amended). For any seeds and multiplier the sequence of
    [numBonacci] starts with [seed1; seed2], as far as it has them, and
    every later element is the multiplier times its predecessor plus the
    element before; for a requested length of at most 1 or at least 4 it
    has [max(requested, 1)] elements. [nbonacci] maps it element by
    element. *)
Theorem numBonacci_contract (len s1 s2 t : Z) :
  let r := numBonacci len s1 s2 t in
  starts_with [s1; s2] r
  ∧ follows_recurrence t r
  ∧ (len ≤ 1 ∨ 4 ≤ len → length r = Z.to_nat (Z.max len 1))
  ∧ ∀ toString, nbonacci len s1 s2 t toString = render toString <$> r.
Proof.
  cbv zeta. split_and!.
  - apply numBonacci_starts_with.
  - apply numBonacci_follows_recurrence.
  - apply numBonacci_length.
  - reflexivity.
Qed.

Lemma numBonacci_contract_witness :
  (4 ≤ 6) ∧ length (numBonacci 6 0 1 2) = 6%nat.
Proof.
  split; [lia|].
  apply (proj1 (proj2 (proj2 (numBonacci_contract 6 0 1 2)))). lia.
Defined.

(** C1 (as stated) fails: with seeds 0 and 1 a request for four elements
    gives 0, 1, 1, 2, which does not start with [seed2; seed1]. *)
Lemma numBonacci_seed_order_counterexample :
  ¬ (let r := numBonacci 4 0 1 1 in
     length r = Z.to_nat (Z.max 4 1)
     ∧ starts_with [1; 0] r
     ∧ follows_recurrence 1 r).
Proof. cbv zeta. intros (_ & Hstart & _). vm_compute in Hstart. done. Qed.

(** ** Fibonacci numbers and the Pisano period: proofs *)

Lemma numBonacci_fibonacci (len : Z) :
  4 ≤ len → numBonacci len 0 1 1 = fibonacci_number <$> seq 0 (Z.to_nat len).
Proof. apply numBonacci_long. Qed.

Lemma fibonacci_number_99 : fibonacci_number 99 = 218922995834555169026.
Proof.
  assert (numBonacci 100 0 1 1 !! 99%nat = Some 218922995834555169026) as H
    by (vm_compute; reflexivity).
  rewrite numBonacci_fibonacci, list_lookup_fmap in H by lia.
  replace (seq 0 (Z.to_nat 100) !! 99%nat) with (Some 99%nat) in H
    by (vm_compute; reflexivity).
  cbn [fmap option_fmap option_map] in H. congruence.
Qed.

(** C9. [fibonacci(100, 0, true)] is the list of the decimal strings of the
    first 100 Fibonacci numbers F(0), ..., F(99); its last element is the
    digit string of the 100th of them, F(99) = 218922995834555169026, a
    value beyond the 64-bit range, which the number output would round. *)
Theorem fibonacci_100_exact :
  fibonacci 100 0 true
  = (λ i, Str (toFixed (fibonacci_number i))) <$> seq 0 100
  ∧ length (fibonacci 100 0 true) = 100%nat
  ∧ last (fibonacci 100 0 true) = Some (Str "218922995834555169026")
  ∧ fibonacci_number 99 = 218922995834555169026
  ∧ 2 ^ 64 < fibonacci_number 99
  ∧ float_to_Z (toNumber (fibonacci_number 99)) ≠ Some (fibonacci_number 99).
Proof.
  split_and!.
  - unfold fibonacci. cbn [Z.ltb Z.compare Z.add].
    rewrite numBonacci_fibonacci by lia.
    rewrite <- list_fmap_compose. reflexivity.
  - vm_compute. reflexivity.
  - vm_compute. reflexivity.
  - exact fibonacci_number_99.
  - rewrite fibonacci_number_99. lia.
  - rewrite fibonacci_number_99. vm_compute. congruence.
Qed.

Lemma pisanoPeriod_modulus_2 (fuel : nat) :
  pisanoPeriod (S fuel) 2 32 = Some [0; 1; 1; 0; 1; 1].
Proof. vm_compute. reflexivity. Qed.

Local Ltac pisano_period :=
  split_and!; [lia | vm_compute; reflexivity | vm_compute; repeat constructor].

(** C3 (as amended). [pisanoPeriod] returns 0, 1, 1, 2, 0, 2, 2, 1 for
    modulus 3, and for each modulus among 3, 4, 5 and 6 the length of the
    sequence it returns is the Pisano period of that modulus: 8, 6, 20 and
    24. One call is enough, whatever fuel is left for further ones. *)
Theorem pisanoPeriod_small_moduli (fuel : nat) :
  pisanoPeriod (S fuel) 3 32 = Some [0; 1; 1; 2; 0; 2; 2; 1]
  ∧ length <$> pisanoPeriod (S fuel) 3 32 = Some 8%nat
  ∧ length <$> pisanoPeriod (S fuel) 4 32 = Some 6%nat
  ∧ length <$> pisanoPeriod (S fuel) 5 32 = Some 20%nat
  ∧ length <$> pisanoPeriod (S fuel) 6 32 = Some 24%nat
  ∧ pisano_period_of 3 8 ∧ pisano_period_of 4 6
  ∧ pisano_period_of 5 20 ∧ pisano_period_of 6 24.
Proof.
  split_and!; try (vm_compute; reflexivity); pisano_period.
Qed.

(** C3 (as stated) fails: for modulus 3 the period returned has eight
    terms, not the four terms 0, 1, 1, 2. *)
Lemma pisanoPeriod_counterexample :
  ¬ ∃ fuel,
      pisanoPeriod fuel 2 32 = Some [0; 1; 1]
      ∧ pisanoPeriod fuel 3 32 = Some [0; 1; 1; 2]
      ∧ length <$> pisanoPeriod fuel 2 32 = Some 3%nat
      ∧ length <$> pisanoPeriod fuel 3 32 = Some 8%nat
      ∧ length <$> pisanoPeriod fuel 4 32 = Some 6%nat
      ∧ length <$> pisanoPeriod fuel 5 32 = Some 20%nat
      ∧ length <$> pisanoPeriod fuel 6 32 = Some 24%nat.
Proof.
  intros [[|fuel] (_ & H3 & _)].
  - discriminate H3.
  - vm_compute in H3. discriminate H3.
Qed.

(** ** The fixed-length entry point: proofs *)

Lemma pisano_degenerate (fuel : nat) (modulus len : Z) :
  modulus < 2 → pisano fuel modulus len = Some [0].
Proof.
  intros Hm. unfold pisano.
  by destruct (Z.ltb_spec modulus 2) as [_|?]; [|lia].
Qed.

Lemma pisano_fixed_length (fuel : nat) (modulus len : Z) :
  2 ≤ modulus → len = 1 ∨ 4 ≤ len →
  pisano fuel modulus len
  = Some ((λ i, Z.rem (fibonacci_number i) modulus) <$> seq 0 (Z.to_nat len)).
Proof.
  intros Hm Hlen. unfold pisano.
  destruct (Z.ltb_spec modulus 2) as [?|_]; [lia|].
  destruct (Z.ltb_spec len 1) as [?|_]; [lia|].
  destruct Hlen as [->|Hlen].
  - reflexivity.
  - rewrite numBonacci_fibonacci by done.
    by rewrite <- list_fmap_compose.
Qed.

(** C4 at the failing requests: asked for two or three terms, [pisano]
    returns the single term 0, where the first Fibonacci numbers modulo 2
    are 0, 1 and 0, 1, 1. *)
Theorem pisano_short_request (fuel : nat) :
  pisano fuel 2 2 = Some [0] ∧ pisano fuel 2 3 = Some [0].
Proof. split; reflexivity. Qed.

(** ** Rotation: proofs *)

Section Rotate.

Context {A : Type}.
Implicit Types a : list A.

Lemma rotate_length a (r : Z) : length (rotate a r) = length a.
Proof.
  unfold rotate. rewrite length_app, length_drop, length_take. lia.
Qed.

Lemma rotate_Permutation a (r : Z) : rotate a r ≡ₚ a.
Proof.
  unfold rotate. rewrite Permutation_app_comm. by rewrite take_drop.
Qed.

Lemma shift_lookup a (k i : nat) :
  (k < length a)%nat → (i < length a)%nat →
  (drop k a ++ take k a) !! i = a !! ((i + k) mod length a)%nat.
Proof.
  intros Hk Hi.
  destruct (decide (i < length a - k)%nat) as [Hlt|Hge].
  - rewrite lookup_app_l by (rewrite length_drop; lia).
    rewrite lookup_drop, Nat.mod_small by lia. f_equal. lia.
  - rewrite lookup_app_r by (rewrite length_drop; lia).
    rewrite length_drop, lookup_take_lt by lia.
    f_equal.
    replace (i + k)%nat with ((i + k - length a) + 1 * length a)%nat by lia.
    rewrite Nat.Div0.mod_add, Nat.mod_small by lia. lia.
Qed.

(** The element at index [i] of the rotated array comes from index
    [i - r], modulo the length: rotating by [r] moves index [j] to
    [j + r]. *)
Lemma rotate_lookup a (r : Z) (i : nat) :
  (i < length a)%nat →
  rotate a r !! i
  = a !! Z.to_nat ((Z.of_nat i - r) `mod` Z.of_nat (length a)).
Proof.
  intros Hi. unfold rotate.
  assert (0 < Z.of_nat (length a)) as Hl by lia.
  pose proof (Z.mod_pos_bound (- r) _ Hl) as Hk.
  pose proof (Z.mod_pos_bound (Z.of_nat i - r) _ Hl) as Hj.
  rewrite shift_lookup by lia. f_equal.
  apply Nat2Z.inj.
  rewrite Nat2Z.inj_mod, Nat2Z.inj_add, !Z2Nat.id by lia.
  by rewrite Zplus_mod_idemp_r.
Qed.

Lemma rotate_rotate a (x y : Z) : rotate (rotate a x) y = rotate a (x + y).
Proof.
  apply list_eq. intros i.
  destruct (decide (i < length a)%nat) as [Hi|Hi].
  - assert (0 < Z.of_nat (length a)) as Hl by lia.
    pose proof (Z.mod_pos_bound (Z.of_nat i - y) _ Hl) as Hj.
    rewrite !rotate_lookup by (rewrite ?rotate_length; lia).
    rewrite rotate_length, Z2Nat.id by lia.
    rewrite Zminus_mod_idemp_l. do 3 f_equal. lia.
  - rewrite !lookup_ge_None_2; [done|rewrite ?rotate_length; lia..].
Qed.

End Rotate.

Lemma occurrences_app (x : Z) (a b : list Z) :
  occurrences x (a ++ b) = (occurrences x a + occurrences x b)%nat.
Proof. unfold occurrences. by rewrite filter_app, length_app. Qed.

Lemma occurrences_rotate (x : Z) (a : list Z) (r : Z) :
  occurrences x (rotate a r) = occurrences x a.
Proof.
  unfold rotate. rewrite occurrences_app, Nat.add_comm, <- occurrences_app.
  by rewrite take_drop.
Qed.

(** ** The Euclidean rhythm: proofs *)

Lemma get_of_nat {A} (a : list A) (k : nat) : get a (Z.of_nat k) = a !! k.
Proof.
  unfold get. destruct (Z.ltb_spec (Z.of_nat k) 0); [lia|].
  by rewrite Nat2Z.id.
Qed.

Lemma expand_step (C R : list Z) (k : nat) :
  expand C R (S (S k))
  = concat (replicate (loop_bound (C !! k)) (expand C R (S k)))
    ++ (if not_zero (R !! k) then expand C R k else []).
Proof. reflexivity. Qed.

(** The expansion at level [n - 2] reads the ladder below that level
    only. *)
Lemma expand_ext (C R C' R' : list Z) (n : nat) :
  (∀ j, (j + 2 ≤ n)%nat → C !! j = C' !! j ∧ R !! j = R' !! j) →
  expand C R n = expand C' R' n.
Proof.
  induction n as [n IH] using lt_wf_ind. intros Hagree.
  destruct n as [|[|k]]; [reflexivity..|].
  rewrite !expand_step.
  destruct (Hagree k) as [<- <-]; [lia|].
  rewrite (IH (S k)), (IH k); [done|lia|..|lia|].
  all: intros j Hj; apply Hagree; lia.
Qed.

Lemma extend_nil (g : globals) : extend g [] = g.
Proof. destruct g. unfold extend. cbn. by rewrite app_nil_r. Qed.

Lemma extend_extend (g : globals) (l l' : list Z) :
  extend (extend g l) l' = extend g (l ++ l').
Proof. unfold extend. cbn. by rewrite app_assoc. Qed.

Lemma repeat_call_extend (f : globals → option globals) (C R l : list Z) :
  (∀ g, counts g = C → remainders g = R → f g = Some (extend g l)) →
  ∀ n g, counts g = C → remainders g = R →
    repeat_call n f g = Some (extend g (concat (replicate n l))).
Proof.
  intros Hf n. induction n as [|n IH]; intros g HC HR; cbn.
  - by rewrite extend_nil.
  - rewrite Hf by done. cbn.
    rewrite IH by done. by rewrite extend_extend.
Qed.

(** With fuel for its depth, [build(level)] returns, having pushed the
    expansion of that level and nothing else. *)
Lemma build_expand (fuel : nat) :
  ∀ (level : Z) (g : globals),
    -2 ≤ level → (Z.to_nat (level + 2) < fuel)%nat →
    build fuel level g
    = Some (extend g (expand (counts g) (remainders g)
                        (Z.to_nat (level + 2)))).
Proof.
  induction fuel as [|fuel IH]; intros level g Hlevel Hfuel; [lia|].
  cbn [build].
  destruct (Z.eqb_spec level (-1)) as [->|Hm1]; [reflexivity|].
  destruct (Z.eqb_spec level (-2)) as [->|Hm2]; [reflexivity|].
  assert (∃ k, level = Z.of_nat k) as [k ->] by (exists (Z.to_nat level); lia).
  replace (Z.to_nat (Z.of_nat k + 2)) with (S (S k)) in * by lia.
  rewrite !get_of_nat.
  rewrite (repeat_call_extend _ (counts g) (remainders g)
             (expand (counts g) (remainders g) (S k))); [|  |done..].
  - cbn [mbind option_bind extend remainders].
    rewrite get_of_nat, expand_step.
    destruct (not_zero (remainders g !! k)).
    + rewrite IH by lia. cbn [extend counts remainders pattern].
      replace (Z.to_nat (Z.of_nat k - 2 + 2)) with k by lia.
      unfold extend. by rewrite app_assoc.
    + by rewrite app_nil_r.
  - intros g' <- <-. rewrite IH by lia.
    by replace (Z.to_nat (Z.of_nat k - 1 + 2)) with (S k) by lia.
Qed.

Lemma additive_nil (μ : list Z → Z) : additive μ → μ [] = 0.
Proof. intros Hμ. specialize (Hμ [] []). cbn in Hμ. lia. Qed.

Lemma additive_concat_replicate (μ : list Z → Z) (n : nat) (l : list Z) :
  additive μ → μ (concat (replicate n l)) = Z.of_nat n * μ l.
Proof.
  intros Hμ. induction n as [|n IH]; cbn [replicate concat].
  - rewrite (additive_nil μ Hμ). lia.
  - rewrite Hμ, IH. lia.
Qed.

(** From a state that satisfies the invariant, with fuel for the current
    remainder, the [while] loop exits: in a state that satisfies the
    invariant and whose last remainder is at most one. *)
Lemma euclid_while_exits (steps beats : Z) (fuel : nat) :
  ∀ (g : globals) (k : nat) (d : Z),
    ladder_inv steps beats g k d →
    (∀ r, remainders g !! k = Some r → r ≤ Z.of_nat fuel) →
    ∃ g' k' d',
      euclid_while fuel g (Z.of_nat k) d = Some (g', Z.of_nat k', d')
      ∧ pattern g' = pattern g
      ∧ ladder_inv steps beats g' k' d'
      ∧ ∀ r, remainders g' !! k' = Some r → r ≤ 1.
Proof.
  assert (∀ f g k d r,
            ladder_inv steps beats g k d → remainders g !! k = Some r →
            r ≤ 1 →
            ∃ g' k' d',
              euclid_while f g (Z.of_nat k) d = Some (g', Z.of_nat k', d')
              ∧ pattern g' = pattern g
              ∧ ladder_inv steps beats g' k' d'
              ∧ ∀ r, remainders g' !! k' = Some r → r ≤ 1) as Hexit.
  { intros f g k d r Hinv Hr Hle. exists g, k, d.
    split_and!; [|done|done|by intros ?; rewrite Hr; intros [= <-]].
    destruct f; cbn [euclid_while]; rewrite get_of_nat, Hr;
      cbn [greater_than_one]; by destruct (Z.ltb_spec 1 r); [lia|]. }
  induction fuel as [|fuel IH];
    intros g k d Hinv Hfuel;
    pose proof Hinv as (HC & HR & r & Hr & Hd & Hr0 & Hμ);
    specialize (Hfuel r Hr);
    (destruct (Z.le_gt_cases r 1) as [Hle|Hgt]; [by eapply Hexit|]);
    [lia|].
  cbn [euclid_while]. rewrite get_of_nat, Hr. cbn [greater_than_one].
  destruct (Z.ltb_spec 1 r) as [_|?]; [|lia].
  change (default 0 (Some r)) with r.
  pose proof (Z.rem_bound_pos d r ltac:(lia) ltac:(lia)) as Hrem.
  pose proof (Z.div_pos d r ltac:(lia) ltac:(lia)) as Hdiv.
  edestruct IH as (g' & k' & d' & Hrun & Hpat & Hinv' & Hlast);
    [| |exists g', k', d'; split_and!;
        [replace (Z.of_nat k + 1) with (Z.of_nat (S k)) by lia; exact Hrun
        |exact Hpat|exact Hinv'|exact Hlast]].
  - split_and!; cbn [counts remainders].
    + rewrite length_app. cbn. lia.
    + rewrite length_app. cbn. lia.
    + exists (Z.rem d r). split_and!; [|lia..|].
      * rewrite lookup_app_r by lia. by replace (S k - length (remainders g))%nat with O by lia.
      * intros μ Hadd.
        rewrite expand_step.
        rewrite lookup_app_r, HC, Nat.sub_diag by lia.
        rewrite lookup_app_l, Hr by lia.
        cbn [lookup list_lookup loop_bound not_zero].
        destruct (Z.eqb_spec r 0) as [?|_]; [lia|]. cbn [negb].
        rewrite Hadd, additive_concat_replicate by done.
        rewrite Z2Nat.id by lia.
        rewrite (expand_ext _ _ (counts g) (remainders g) (S k)),
                (expand_ext _ _ (counts g) (remainders g) k).
        -- rewrite <- (Hμ μ Hadd).
           rewrite Z.rem_mod_nonneg by lia.
           rewrite (Z.div_mod d r) at 3 by lia. ring.
        -- intros j Hj. by rewrite !lookup_app_l by lia.
        -- intros j Hj. by rewrite !lookup_app_l by lia.
  - cbn [remainders]. intros r'.
    rewrite lookup_app_r by lia.
    replace (S k - length (remainders g))%nat with O by lia.
    intros [= <-]. lia.
Qed.

(** For [0 ≤ beats ≤ steps], [euclid] returns: the rotation of a pattern
    that holds [steps - beats] zeros and [beats] ones, whatever additive
    measure counts them. *)
Lemma euclid_pattern (steps beats : Z) :
  0 ≤ beats ≤ steps →
  ∃ p, (∀ rot, euclid steps beats rot = Some (rotate p (rot - indexOf p 1)))
       ∧ ∀ μ, additive μ → μ p = (steps - beats) * μ [0] + beats * μ [1].
Proof.
  intros Hb. unfold euclid. cbn [pattern counts remainders app].
  destruct (euclid_while_exits steps beats (Z.to_nat beats)
              {| pattern := []; counts := []; remainders := [beats] |}
              0 (steps - beats))
    as (g & k & d & Hrun & Hpat & (HC & HR & r & Hr & Hd & Hr0 & Hμ) & Hlast).
  - split_and!; [done..|]. exists beats. split_and!; [done|lia..|].
    intros μ _. cbn. lia.
  - cbn. intros r [= <-]. lia.
  - change 0 with (Z.of_nat 0) at 1. rewrite Hrun. cbn [mbind option_bind].
    rewrite build_expand by lia.
    cbn [mbind option_bind extend pattern counts remainders].
    rewrite Hpat. cbn [pattern app].
    replace (Z.to_nat (Z.of_nat k + 2)) with (S (S k)) by lia.
    eexists. split; [reflexivity|].
    intros μ Hadd. specialize (Hμ μ Hadd). specialize (Hlast r Hr).
    rewrite expand_step.
    rewrite lookup_app_r, HC, Nat.sub_diag by lia.
    cbn [lookup list_lookup loop_bound]. rewrite Hr. cbn [not_zero].
    rewrite Hadd, (additive_concat_replicate μ), Z2Nat.id by done.
    rewrite (expand_ext _ _ (counts g) (remainders g) (S k)),
            (expand_ext _ _ (counts g) (remainders g) k).
    + rewrite <- Hμ. destruct (Z.eqb_spec r 0) as [->|Hne]; cbn [negb].
      * rewrite (additive_nil μ Hadd). lia.
      * replace r with 1 by lia. lia.
    + intros j Hj. by rewrite lookup_app_l by lia.
    + intros j Hj. by rewrite lookup_app_l by lia.
Qed.

Lemma additive_length : additive (λ l, Z.of_nat (length l)).
Proof. intros a b. rewrite length_app. lia. Qed.

Lemma additive_occurrences (x : Z) : additive (λ l, Z.of_nat (occurrences x l)).
Proof. intros a b. rewrite occurrences_app. lia. Qed.

(** C2. For [steps ≥ 1] and [0 ≤ beats ≤ steps], [euclid(steps, beats, 0)]
    returns a sequence of length [steps] that holds exactly [beats] ones
    and exactly [steps - beats] zeros. *)
Theorem euclid_counts (steps beats : Z) :
  1 ≤ steps → 0 ≤ beats ≤ steps →
  ∃ p, euclid steps beats 0 = Some p
       ∧ length p = Z.to_nat steps
       ∧ occurrences 1 p = Z.to_nat beats
       ∧ occurrences 0 p = Z.to_nat (steps - beats).
Proof.
  intros _ Hb.
  destruct (euclid_pattern steps beats Hb) as (p & Hp & Hμ).
  rewrite Hp. eexists. split; [reflexivity|].
  pose proof (Hμ _ additive_length) as Hlen.
  pose proof (Hμ _ (additive_occurrences 1)) as Hone.
  pose proof (Hμ _ (additive_occurrences 0)) as Hzero.
  rewrite rotate_length, !occurrences_rotate.
  cbv beta in Hlen, Hone, Hzero. cbn [length] in Hlen.
  change (occurrences 1 [0]) with 0%nat in Hone.
  change (occurrences 1 [1]) with 1%nat in Hone.
  change (occurrences 0 [0]) with 1%nat in Hzero.
  change (occurrences 0 [1]) with 0%nat in Hzero.
  lia.
Qed.

Lemma euclid_counts_witness :
  ∃ p, euclid 13 5 0 = Some p
       ∧ length p = 13%nat ∧ occurrences 1 p = 5%nat
       ∧ occurrences 0 p = 8%nat.
Proof. apply (euclid_counts 13 5); lia. Defined.

(** C6. [euclid(8,4,0)] and [fastEuclid(8,4,0)] both are
    1, 0, 1, 0, 1, 0, 1, 0. *)
Theorem euclid_fastEuclid_8_4 :
  euclid 8 4 0 = Some [1; 0; 1; 0; 1; 0; 1; 0]
  ∧ fastEuclid 8 4 0 = [1; 0; 1; 0; 1; 0; 1; 0].
Proof. split; vm_compute; reflexivity. Qed.

(** C7. For [steps ≥ 1], [0 ≤ beats ≤ steps] and any rotation [r],
    [euclid(steps, beats, r)] is [euclid(steps, beats, 0)] rotated by
    [r]: a cyclic shift with the same multiset of values. *)
Theorem euclid_rotation (steps beats r : Z) :
  1 ≤ steps → 0 ≤ beats ≤ steps →
  ∃ p p0, euclid steps beats r = Some p
          ∧ euclid steps beats 0 = Some p0
          ∧ p ≡ₚ p0
          ∧ p = rotate p0 r.
Proof.
  intros _ Hb.
  destruct (euclid_pattern steps beats Hb) as (q & Hq & _).
  do 2 eexists. split_and!; [apply Hq..| |].
  - by rewrite !rotate_Permutation.
  - rewrite rotate_rotate. f_equal. lia.
Qed.

Lemma euclid_rotation_witness :
  ∃ p p0, euclid 7 3 2 = Some p ∧ euclid 7 3 0 = Some p0
          ∧ p ≡ₚ p0 ∧ p = rotate p0 2.
Proof. apply (euclid_rotation 7 3 2); lia. Defined.

(** ** The cellular automaton: proofs *)

Section AutomatonFacts.

Import Automaton.

Lemma list_ascii_app (s s' : string) :
  String.list_ascii_of_string (s +:+ s')
  = String.list_ascii_of_string s ++ String.list_ascii_of_string s'.
Proof.
  induction s as [|c s IH]; [done|].
  change (String c s +:+ s') with (String c (s +:+ s')).
  cbn [String.list_ascii_of_string]. by rewrite IH.
Qed.

Lemma list_ascii_length (s : string) :
  length (String.list_ascii_of_string s) = String.length s.
Proof. induction s as [|c s IH]; cbn; [done|by rewrite IH]. Qed.

Lemma padStart_chars (n : nat) (s : string) :
  String.list_ascii_of_string (padStart n s)
  = replicate (n - String.length s) "0"%char
    ++ String.list_ascii_of_string s.
Proof.
  unfold padStart.
  by rewrite list_ascii_app, String.list_ascii_of_string_of_list_ascii.
Qed.

Lemma padStart_length (n : nat) (s : string) :
  (n ≤ length (String.list_ascii_of_string (padStart n s)))%nat.
Proof.
  rewrite padStart_chars, length_app, length_replicate, list_ascii_length.
  lia.
Qed.

Lemma padStart_bits (n : nat) (s : string) :
  Forall bit_char (String.list_ascii_of_string s) →
  Forall bit_char (String.list_ascii_of_string (padStart n s)).
Proof.
  intros Hs. rewrite padStart_chars. apply Forall_app. split; [|done].
  apply Forall_replicate. by left.
Qed.

Lemma bits_snoc (s : string) (c : ascii) :
  Forall bit_char (String.list_ascii_of_string s) → bit_char c →
  Forall bit_char (String.list_ascii_of_string (s +:+ String c "")).
Proof.
  intros Hs Hc. rewrite list_ascii_app. apply Forall_app. split; [done|].
  by apply Forall_singleton.
Qed.

Lemma bits_cons (c : ascii) (s : string) :
  bit_char c → Forall bit_char (String.list_ascii_of_string s) →
  Forall bit_char (String.list_ascii_of_string (String c "" +:+ s)).
Proof. intros Hc Hs. by constructor. Qed.

Lemma binary_digits_bits (p : positive) :
  Forall bit_char (String.list_ascii_of_string (binary_digits p)).
Proof.
  induction p as [p IH|p IH|]; cbn [binary_digits].
  - apply bits_snoc; [done|by right].
  - apply bits_snoc; [done|by left].
  - apply Forall_singleton. by right.
Qed.

Lemma toString2_bits (n : Z) :
  0 ≤ n → Forall bit_char (String.list_ascii_of_string (toString2 n)).
Proof.
  intros Hn. destruct n as [|p|p]; [|apply binary_digits_bits|lia].
  apply Forall_singleton. by left.
Qed.

Lemma join_bits (a : list value) :
  Forall is_bit a → Forall bit_char (String.list_ascii_of_string (join a)).
Proof.
  induction 1 as [|v a [-> | ->] _ IH]; cbn [join foldr].
  - constructor.
  - apply (bits_cons "0"); [by left|exact IH].
  - apply (bits_cons "1"); [by right|exact IH].
Qed.

Lemma slice_Forall {A} (P : A → Prop) (a : list A) (i j : Z) :
  Forall P a → Forall P (slice a i j).
Proof. intros Ha. unfold slice. by apply Forall_take, Forall_drop. Qed.

Lemma char_number_bit (c : ascii) : bit_char c → is_bit (char_number (Some c)).
Proof. intros [-> | ->]; [by left|by right]. Qed.

(** [binaryToTable] makes the eight keys, and reads the entry for the
    neighborhood of binary value [7 - i] from position [i]. *)
Lemma binaryToTable_keys (r : list ascii) :
  size (binaryToTable r) = 8%nat
  ∧ binaryToTable r !! "111" = Some (char_number (r !! 0%nat))
  ∧ binaryToTable r !! "110" = Some (char_number (r !! 1%nat))
  ∧ binaryToTable r !! "101" = Some (char_number (r !! 2%nat))
  ∧ binaryToTable r !! "100" = Some (char_number (r !! 3%nat))
  ∧ binaryToTable r !! "011" = Some (char_number (r !! 4%nat))
  ∧ binaryToTable r !! "010" = Some (char_number (r !! 5%nat))
  ∧ binaryToTable r !! "001" = Some (char_number (r !! 6%nat))
  ∧ binaryToTable r !! "000" = Some (char_number (r !! 7%nat)).
Proof. split_and!; vm_compute; reflexivity. Qed.

Lemma binaryToTable_eight_keys (r : list ascii) :
  eight_keys (binaryToTable r).
Proof.
  destruct (binaryToTable_keys r)
    as (Hsize & H7 & H6 & H5 & H4 & H3 & H2 & H1 & H0).
  split; [done|]. unfold neighborhoods.
  repeat (constructor; [by eexists|]). constructor.
Qed.

Lemma binaryToTable_full (r : list ascii) :
  Forall bit_char r → (8 ≤ length r)%nat → full_table (binaryToTable r).
Proof.
  intros Hbits Hlen.
  destruct r as [|c0 [|c1 [|c2 [|c3 [|c4 [|c5 [|c6 [|c7 r]]]]]]]];
    cbn in Hlen; try lia.
  repeat match goal with
         | H : Forall _ (_ :: _) |- _ => apply Forall_cons in H as [? H]
         end.
  destruct (binaryToTable_keys (c0 :: c1 :: c2 :: c3 :: c4 :: c5 :: c6 :: c7 :: r))
    as (Hsize & K7 & K6 & K5 & K4 & K3 & K2 & K1 & K0).
  split; [done|]. unfold neighborhoods.
  repeat (constructor; [eexists; split; [eassumption|by apply char_number_bit]|]).
  constructor.
Qed.

(** C5 (as amended). After [rule()] with a non-negative integer or with
    an array of bits the table has exactly eight entries, one for each
    neighborhood from 000 to 111, each a single bit; after [rule()] with
    any integer or any array it has exactly these eight keys; after
    [rule()] with an object it is a copy of that object, whatever its
    keys. *)
Theorem rule_table (this : automaton) :
  (∀ n, 0 ≤ n → full_table (table (rule (AValue (VNum n)) this).1))
  ∧ (∀ a, Forall is_bit a → full_table (table (rule (AArray a) this).1))
  ∧ (∀ n, eight_keys (table (rule (AValue (VNum n)) this).1))
  ∧ (∀ a, eight_keys (table (rule (AArray a) this).1))
  ∧ (∀ o, table (rule (AObject o) this).1 = o).
Proof.
  split_and!.
  - intros n Hn. cbn. apply binaryToTable_full.
    + by apply padStart_bits, toString2_bits.
    + apply padStart_length.
  - intros a Ha. cbn. apply binaryToTable_full.
    + by apply padStart_bits, join_bits, slice_Forall.
    + apply padStart_length.
  - intros n. cbn. apply binaryToTable_eight_keys.
  - intros a. cbn. apply binaryToTable_eight_keys.
  - reflexivity.
Qed.

Lemma rule_table_witness :
  0 ≤ 30 ∧ full_table (table (rule (AValue (VNum 30)) (constructor 8 110)).1).
Proof.
  split; [lia|].
  apply (proj1 (rule_table (constructor 8 110)) 30). lia.
Defined.

(** C5 (as stated) fails: an object without keys is accepted, with a
    warning, and becomes the table, which then has no entry at all. *)
Lemma rule_object_counterexample :
  ¬ full_table (table (rule (AObject ∅) (constructor 8 110)).1).
Proof. intros [Hsize _]. vm_compute in Hsize. discriminate Hsize. Qed.



(** Each turn of the loop of [next] stores one more cell. *)
Lemma for_loop_push {A} (f : Z → list A → A) (n : nat) :
  ∀ (i : Z) (l : list A),
    length (for_loop n i (λ i l, l ++ [f i l]) l) = (length l + n)%nat.
Proof.
  induction n as [|n IH]; intros i l; cbn [for_loop]; [lia|].
  rewrite IH, length_app. cbn. lia.
Qed.

Lemma next_length (this : automaton) :
  length (next this).2 = Z.to_nat (_length this)
  ∧ _state (next this).1 = (next this).2
  ∧ _length (next this).1 = _length this.
Proof.
  split_and!; [|reflexivity..].
  unfold next, for_range. cbn [snd].
  rewrite (for_loop_push
             (λ i _, default VUndefined
                       (_table this
                          !! join [cell this (Z.rem (i - Z.rem 1 (_length this) + _length this) (_length this));
                                   cell this i;
                                   cell this (Z.rem (i + Z.rem 1 (_length this) + _length this) (_length this))]))).
  cbn. lia.
Qed.

Lemma constructor_consistent (l r : Z) : consistent (constructor l r).
Proof.
  split; cbn [constructor _state _length].
  - by rewrite length_replicate.
  - lia.
Qed.

Lemma feed_rejected (a : argument) (this : automaton) :
  (∀ x, a = AArray x → (length x < 3)%nat) → (feed a this).1 = this.
Proof.
  intros Ha. destruct a as [x| |]; [|reflexivity..].
  specialize (Ha x eq_refl). cbn [feed].
  by destruct (Z.ltb_spec (Z.of_nat (length x)) 3); [|lia].
Qed.

Lemma perform_consistent (c : call) (this : automaton) :
  consistent this → consistent (perform c this).
Proof.
  intros [Hlen Hmin]. destruct c as [a|a|]; cbn [perform].
  - destruct a as [a|o|v]; [done..|].
    unfold rule. by destruct (Number v).
  - destruct a as [a|o|v]; [|done..]. cbn [feed].
    destruct (Z.ltb_spec (Z.of_nat (length a)) 3); [done|].
    split; cbn; lia.
  - destruct (next_length this) as (Hn & Hs & Hl).
    split; rewrite ?Hs, ?Hl; [done|lia].
Qed.

Lemma run_consistent (cs : list call) :
  ∀ this, consistent this → consistent (run cs this).
Proof.
  induction cs as [|c cs IH]; intros this Hthis; [done|].
  cbn [run foldl]. apply IH. by apply perform_consistent.
Qed.

(** C10. After construction and any sequence of [rule()], [feed()] and
    [next()] calls the stored state has the stored length, which is at
    least 3; a [feed()] with something else than an array of at least
    three elements changes neither; and [next()] stores and returns a
    state as long as the one before. *)
Theorem state_length_invariant (l r : Z) (cs : list call) :
  let this := run cs (constructor l r) in
  length (state this) = Z.to_nat (_length this)
  ∧ 3 ≤ _length this
  ∧ (∀ a, (∀ x, a = AArray x → (length x < 3)%nat) →
          state (feed a this).1 = state this
          ∧ _length (feed a this).1 = _length this)
  ∧ length (next this).2 = length (state this)
  ∧ state (next this).1 = (next this).2.
Proof.
  cbv zeta.
  destruct (run_consistent cs _ (constructor_consistent l r)) as [Hlen Hmin].
  destruct (next_length (run cs (constructor l r))) as (Hn & Hs & _).
  split_and!; [done|done| |by rewrite Hn|done].
  intros a Ha. by rewrite feed_rejected.
Qed.

Lemma state_length_invariant_witness :
  let this := run [call_feed (AArray (VNum <$> [0; 1; 0; 0])); call_next]
                (constructor 8 110) in
  state (feed (AArray [VNum 1; VNum 1]) this).1 = state this
  ∧ _length (feed (AArray [VNum 1; VNum 1]) this).1 = _length this.
Proof.
  apply (proj1 (proj2 (proj2
           (state_length_invariant 8 110
              [call_feed (AArray (VNum <$> [0; 1; 0; 0])); call_next])))).
  intros x [= <-]. cbn. lia.
Defined.

End AutomatonFacts.

(** ** The named recurrences: proofs *)

(** A request with an offset reads the window of the sequence that starts
    at the offset. *)
Lemma numBonacci_window (t s1 s2 len offset : Z) (toString : bool) :
  0 ≤ offset → 4 ≤ len + offset →
  (let f := render toString <$> numBonacci (len + offset) s1 s2 t in
   if 0 <? offset then slice f offset (offset + len) else f)
  = (λ i, render toString (recurrence_term t s1 s2 i))
      <$> seq (Z.to_nat offset) (Z.to_nat len).
Proof.
  intros Hoff Hlen. cbv zeta.
  rewrite numBonacci_long, <- list_fmap_compose by done.
  destruct (Z.ltb_spec 0 offset) as [Hpos|Hzero].
  - unfold slice. rewrite length_fmap, length_seq.
    destruct (Z.ltb_spec offset 0) as [?|_]; [lia|].
    destruct (Z.ltb_spec (offset + len) 0) as [?|_]; [lia|].
    rewrite <- fmap_drop, <- fmap_take, drop_seq, take_seq. f_equal.
    destruct (Z.le_gt_cases 0 len).
    + f_equal; lia.
    + replace (Z.to_nat len) with O by lia.
      match goal with |- seq _ ?n = _ => replace n with O by lia end.
      reflexivity.
  - replace offset with 0 by lia. by rewrite Z.add_0_r.
Qed.

(** X1. With an offset of at least 0 and at least four terms to generate
    ([len + offset ≥ 4]), [fibonacci], [pell], [threeFibonacci] and [lucas]
    return the terms [offset], ..., [offset + len - 1] of their recurrence:
    multiplier 1, 2, 3 from seeds 0, 1, and multiplier 1 from seeds 2, 1. *)
Theorem named_recurrences_window (len offset : Z) (toString : bool) :
  0 ≤ offset → 4 ≤ len + offset →
  let window t s1 s2 :=
    (λ i, render toString (recurrence_term t s1 s2 i))
      <$> seq (Z.to_nat offset) (Z.to_nat len) in
  fibonacci len offset toString = window 1 0 1
  ∧ pell len offset toString = window 2 0 1
  ∧ threeFibonacci len offset toString = window 3 0 1
  ∧ lucas len offset toString = window 1 2 1.
Proof.
  intros Hoff Hlen. cbv zeta.
  split_and!; by apply numBonacci_window.
Qed.

Lemma named_recurrences_window_witness :
  pell 3 2 true = [Str "2"; Str "5"; Str "12"]
  ∧ lucas 3 2 true = [Str "3"; Str "4"; Str "7"].
Proof.
  destruct (named_recurrences_window 3 2 true) as (_ & Hpell & _ & Hlucas);
    [lia..|].
  split; [exact Hpell|exact Hlucas].
Defined.

(** ** The Pisano period detector: proofs *)

Lemma fibonacci_number_nonneg (n : nat) : 0 ≤ fibonacci_number n.
Proof.
  unfold fibonacci_number.
  induction n as [n IH] using lt_wf_ind.
  destruct n as [|[|k]]; [done..|].
  rewrite recurrence_term_step.
  pose proof (IH (S k) ltac:(lia)). pose proof (IH k ltac:(lia)). lia.
Qed.

Lemma numBonacci_fibonacci_terms (len : Z) :
  ∃ n, numBonacci len 0 1 1 = fibonacci_number <$> seq 0 n.
Proof.
  destruct (Z.le_gt_cases len 3).
  - exists 1%nat. by rewrite numBonacci_short.
  - eexists. by apply numBonacci_fibonacci; lia.
Qed.

Lemma reduce_range (modulus : Z) (l : list Z) :
  2 ≤ modulus → Forall (λ x, 0 ≤ x) l →
  Forall (λ x, 0 ≤ x < modulus) (reduce modulus <$> l).
Proof.
  intros Hm Hl. apply Forall_fmap. eapply Forall_impl; [exact Hl|].
  intros x Hx. cbv beta in Hx. unfold compose, reduce.
  apply Z.rem_bound_pos; lia.
Qed.

Lemma numBonacci_reduce_range (modulus len : Z) :
  2 ≤ modulus →
  Forall (λ x, 0 ≤ x < modulus) (reduce modulus <$> numBonacci len 0 1 1).
Proof.
  intros Hm. apply reduce_range; [done|].
  destruct (numBonacci_fibonacci_terms len) as [n ->].
  apply Forall_fmap, Forall_forall. intros i _. apply fibonacci_number_nonneg.
Qed.

Lemma pisano_scan_prefix (seq : list Z) :
  ∀ todo p l r, pisano_scan seq todo p l = Some r → ∃ j, r = take j seq.
Proof.
  induction todo as [|x todo IH]; intros p l r; cbn [pisano_scan]; [done|].
  destruct (2 <? length (p ++ [x]))%nat; [|apply IH].
  destruct (_ && _); [|apply IH].
  intros [= <-]. unfold slice.
  destruct (Z.ltb_spec 0 0); [lia|]. rewrite (Z.min_l 0) by lia.
  rewrite Z.sub_0_r. cbn [Z.to_nat drop]. by eexists.
Qed.

Lemma pisanoPeriod_prefix (fuel : nat) :
  ∀ modulus len p,
    pisanoPeriod fuel modulus len = Some p →
    ∃ j L, p = take j (reduce modulus <$> numBonacci L 0 1 1).
Proof.
  induction fuel as [|fuel IH]; intros modulus len p; cbn [pisanoPeriod];
    [done|].
  destruct (pisano_scan _ _ _ _) as [r|] eqn:Hscan.
  - intros [= <-]. apply pisano_scan_prefix in Hscan as [j ->]. by eexists _, _.
  - apply IH.
Qed.

(** X2. For a modulus of at least 2, every term that [pisano] returns,
    with or without a requested length, lies between 0 and the modulus
    minus one. *)
Theorem pisano_range (fuel : nat) (modulus len : Z) (p : list Z) :
  2 ≤ modulus → pisano fuel modulus len = Some p →
  Forall (λ x, 0 ≤ x < modulus) p.
Proof.
  intros Hm. unfold pisano.
  destruct (Z.ltb_spec modulus 2) as [?|_]; [lia|].
  destruct (Z.ltb_spec len 1) as [_|_].
  - intros Hp. apply pisanoPeriod_prefix in Hp as (j & L & ->).
    by apply Forall_take, numBonacci_reduce_range.
  - intros [= <-]. by apply numBonacci_reduce_range.
Qed.

Lemma pisano_range_witness :
  Forall (λ x, 0 ≤ x < 7) [0; 1; 1; 2; 3; 5; 1; 6; 0; 6; 6; 5; 4; 2; 6; 1].
Proof. apply (pisano_range 1 7 (-1)); [lia|vm_compute; reflexivity]. Defined.

Lemma count_equal_window (a b c : Z) :
  (count_equal [a; b; c] [0; 1; 1] =? 3) = true ↔ a = 0 ∧ b = 1 ∧ c = 1.
Proof.
  unfold count_equal. cbn [zip zip_with].
  rewrite !filter_cons, filter_nil. cbn [fst snd].
  repeat case_decide; subst; cbn; (split; [intros ?|intros (? & ? & ?)]);
    done.
Qed.

(** The scan, after [i] terms: the window holds the last two of them and
    [l] is the position of the first. It returns the terms before the
    first restart it meets after position 3, or nothing when there is
    none in the batch. *)
Lemma pisano_scan_restart (seq : list Z) :
  ∀ (todo : list Z) (i : nat) (p : list Z) (l : Z),
    todo = drop i seq → (i ≤ length seq)%nat →
    p = drop (i - 2) (take i seq) → l = Z.of_nat (i - 2) →
    (∀ j, (3 < j < i - 2)%nat → ¬ restart_at seq j) →
    match pisano_scan seq todo p l with
    | Some r =>
        ∃ j, (3 < j)%nat ∧ restart_at seq j
             ∧ (∀ j', (3 < j' < j)%nat → ¬ restart_at seq j')
             ∧ r = take j seq
    | None => ∀ j, (3 < j)%nat → ¬ restart_at seq j
    end.
Proof.
  induction todo as [|x todo IH]; intros i p l Htodo Hi Hp Hl Hbefore.
  - cbn [pisano_scan]. intros j Hj Hrestart.
    assert (length seq ≤ i)%nat.
    { destruct (decide (length seq ≤ i)%nat); [done|].
      assert (length (drop i seq) = 0%nat) as Hd by by rewrite <- Htodo.
      rewrite length_drop in Hd. lia. }
    destruct (decide (j < i - 2)%nat) as [Hlt|Hge].
    + by apply (Hbefore j); [lia|].
    + destruct Hrestart as (_ & _ & H2). apply lookup_lt_Some in H2. lia.
  - assert (seq !! i = Some x) as Hx.
    { rewrite <- (Nat.add_0_r i), <- lookup_drop, <- Htodo. done. }
    assert (todo = drop (S i) seq) as Htodo'.
    { replace (S i) with (i + 1)%nat by lia.
      rewrite <- drop_drop, <- Htodo. done. }
    pose proof (lookup_lt_Some _ _ _ Hx) as Hlt.
    assert (p ++ [x] = drop (i - 2) (take (S i) seq)) as Hp'.
    { rewrite (take_S_r _ _ x), drop_app_le, <- Hp; [done| |done].
      rewrite length_take. lia. }
    assert (length (p ++ [x]) = S i - (i - 2))%nat as Hlen.
    { rewrite Hp', length_drop, length_take. lia. }
    cbn [pisano_scan].
    destruct (Nat.ltb_spec 2 (length (p ++ [x]))) as [Hlong|Hshort].
    + assert (2 ≤ i)%nat as Hi2 by lia.
      destruct (p ++ [x]) as [|a [|b [|c [|? ?]]]] eqn:Hwin;
        cbn in Hlen; try lia.
      assert (seq !! (i - 2)%nat = Some a ∧ seq !! (i - 2 + 1)%nat = Some b
              ∧ seq !! (i - 2 + 2)%nat = Some c) as (Ha & Hb & Hc).
      { split_and!.
        - rewrite <- (lookup_take_lt seq (S i)) by lia.
          rewrite <- (Nat.add_0_r (i - 2)), <- lookup_drop, <- Hp'. done.
        - rewrite <- (lookup_take_lt seq (S i)) by lia.
          rewrite <- lookup_drop, <- Hp'. done.
        - rewrite <- (lookup_take_lt seq (S i)) by lia.
          rewrite <- lookup_drop, <- Hp'. done. }
      assert (restart_at seq (i - 2) ↔ a = 0 ∧ b = 1 ∧ c = 1) as Hrestart.
      { unfold restart_at. rewrite Ha, Hb, Hc.
        split; [intros ([= ->] & [= ->] & [= ->])|intros (-> & -> & ->)];
          done. }
      assert ([b; c] = drop (S i - 2) (take (S i) seq)) as Hnext.
      { replace (S i - 2)%nat with (i - 2 + 1)%nat by lia.
        rewrite <- drop_drop, <- Hp'. done. }
      assert (l + 1 = Z.of_nat (S i - 2)) as Hl' by lia.
      destruct (count_equal [a; b; c] [0; 1; 1] =? 3) eqn:Hcount.
      * apply count_equal_window, Hrestart in Hcount.
        destruct (Z.ltb_spec 3 l) as [Hl3|Hl3]; cbn [andb].
        -- exists (i - 2)%nat. split_and!; [lia|done|done|].
           unfold slice. destruct (Z.ltb_spec 0 0); [lia|].
           destruct (Z.ltb_spec l 0); [lia|].
           rewrite (Z.min_l 0), (Z.min_l l) by lia.
           rewrite Z.sub_0_r. cbn [Z.to_nat drop]. f_equal. lia.
        -- apply (IH (S i) _ _ Htodo' ltac:(lia) Hnext Hl').
           intros j Hj. apply Hbefore. lia.
      * cbn [andb]. apply (IH (S i) _ _ Htodo' ltac:(lia) Hnext Hl').
        intros j Hj. destruct (decide (j = i - 2)%nat) as [->|Hne].
        -- rewrite Hrestart. intros Habc.
           apply count_equal_window in Habc. congruence.
        -- apply Hbefore. lia.
    + assert (p ++ [x] = drop (S i - 2) (take (S i) seq)) as Hnext.
      { rewrite Hp'. f_equal. lia. }
      apply (IH (S i) (p ++ [x]) l Htodo' ltac:(lia) Hnext ltac:(lia)).
      intros j Hj. lia.
Qed.

Lemma batch_lookup (modulus : Z) (n k : nat) :
  (k < n)%nat →
  (reduce modulus <$> (fibonacci_number <$> seq 0 n)) !! k
  = Some (Z.rem (fibonacci_number k) modulus).
Proof.
  intros Hk. by rewrite !list_lookup_fmap, lookup_seq_lt by done.
Qed.

Lemma batch_restart (modulus : Z) (n j : nat) :
  (j + 2 < n)%nat →
  restart_at (reduce modulus <$> (fibonacci_number <$> seq 0 n)) j
  ↔ fibonacci_restart modulus j.
Proof.
  intros Hj. unfold restart_at, fibonacci_restart.
  rewrite !batch_lookup by lia.
  split; [intros ([= ->] & [= ->] & [= ->])|intros (-> & -> & ->)]; done.
Qed.

Lemma pisanoPeriod_restart (fuel : nat) :
  ∀ (modulus len : Z) (p : list Z),
    4 ≤ len → pisanoPeriod fuel modulus len = Some p →
    ∃ j, (3 < j)%nat
         ∧ p = (λ i, Z.rem (fibonacci_number i) modulus) <$> seq 0 j
         ∧ fibonacci_restart modulus j
         ∧ ∀ j', (3 < j' < j)%nat → ¬ fibonacci_restart modulus j'.
Proof.
  induction fuel as [|fuel IH]; intros modulus len p Hlen;
    cbn [pisanoPeriod]; [done|].
  rewrite numBonacci_fibonacci by done.
  set (n := Z.to_nat len).
  set (batch := reduce modulus <$> (fibonacci_number <$> seq 0 n)).
  pose proof (pisano_scan_restart batch batch 0 [] 0 eq_refl
                ltac:(lia) eq_refl eq_refl ltac:(lia)) as Hscan.
  destruct (pisano_scan batch batch [] 0) as [r|].
  - intros [= <-]. destruct Hscan as (j & Hj & Hrestart & Hfirst & ->).
    assert (j + 2 < n)%nat as Hjn.
    { destruct Hrestart as (_ & _ & H2). apply lookup_lt_Some in H2.
      unfold batch in H2. rewrite !length_fmap, length_seq in H2. done. }
    exists j. split_and!; [done| |by apply (batch_restart modulus n)|].
    + unfold batch. rewrite <- list_fmap_compose, <- fmap_take, take_seq.
      by replace (j `min` n)%nat with j by lia.
    + intros j' Hj' Hr. apply (Hfirst j' Hj').
      apply (batch_restart modulus n); [lia|done].
  - apply IH. lia.
Qed.

(** X3. The period that [pisanoPeriod] returns is the list of the
    Fibonacci numbers modulo the modulus up to the first position after 3
    from where the sequence reads 0, 1, 1 again: it never has fewer than
    four terms, and a restart at position 3 or before is passed over. *)
Theorem pisanoPeriod_first_restart (fuel : nat) (modulus : Z) (p : list Z) :
  pisanoPeriod fuel modulus 32 = Some p →
  ∃ j, (3 < j)%nat
       ∧ p = (λ i, Z.rem (fibonacci_number i) modulus) <$> seq 0 j
       ∧ fibonacci_restart modulus j
       ∧ ∀ j', (3 < j' < j)%nat → ¬ fibonacci_restart modulus j'.
Proof. apply pisanoPeriod_restart. lia. Qed.

Lemma pisanoPeriod_first_restart_witness :
  ∃ j, (3 < j)%nat
       ∧ [0; 1; 1; 0; 1; 1]
         = (λ i, Z.rem (fibonacci_number i) 2) <$> seq 0 j
       ∧ fibonacci_restart 2 j
       ∧ ∀ j', (3 < j' < j)%nat → ¬ fibonacci_restart 2 j'.
Proof.
  apply (pisanoPeriod_first_restart 1 2). vm_compute. reflexivity.
Defined.

(** ** The Euclidean rhythm: edge cases and alignment *)

Lemma occurrences_cons (x y : Z) (l : list Z) :
  occurrences x (y :: l)
  = ((if decide (y = x) then 1 else 0) + occurrences x l)%nat.
Proof. unfold occurrences. rewrite filter_cons. by case_decide. Qed.

Lemma occurrences_le (x : Z) (l : list Z) :
  (occurrences x l ≤ length l)%nat.
Proof.
  induction l as [|y l IH]; [done|].
  rewrite occurrences_cons. cbn [length]. case_decide; lia.
Qed.

Lemma occurrences_all (x : Z) (l : list Z) :
  occurrences x l = length l → l = replicate (length l) x.
Proof.
  induction l as [|y l IH]; [done|].
  rewrite occurrences_cons. cbn [length replicate].
  pose proof (occurrences_le x l).
  case_decide; [|lia]. intros Hl. subst y. f_equal. apply IH. lia.
Qed.

Lemma occurrences_disjoint (l : list Z) :
  (occurrences 0 l + occurrences 1 l ≤ length l)%nat.
Proof.
  induction l as [|y l IH]; [done|].
  rewrite !occurrences_cons. cbn [length]. repeat case_decide; lia.
Qed.

Lemma occurrences_binary (l : list Z) :
  (occurrences 0 l + occurrences 1 l)%nat = length l → Forall binary l.
Proof.
  induction l as [|y l IH]; [constructor|].
  rewrite !occurrences_cons. cbn [length].
  pose proof (occurrences_disjoint l).
  intros Hl. constructor.
  - unfold binary. repeat case_decide; lia.
  - apply IH. repeat case_decide; lia.
Qed.

(** [indexOf] finds the first position of an element that occurs. *)
Lemma indexOf_lookup (x : Z) (l : list Z) :
  (0 < occurrences x l)%nat →
  ∃ i : nat, indexOf l x = Z.of_nat i ∧ l !! i = Some x.
Proof.
  induction l as [|y l IH]; [cbn; lia|].
  rewrite occurrences_cons. cbn [indexOf].
  destruct (Z.eqb_spec y x) as [->|Hne].
  - intros _. by exists 0%nat.
  - case_decide; [done|]. intros Hl.
    destruct (IH Hl) as (i & -> & Hi).
    destruct (Z.ltb_spec (Z.of_nat i) 0); [lia|].
    exists (S i). split; [lia|done].
Qed.

Lemma euclid_pattern_counts (steps beats : Z) :
  0 ≤ beats ≤ steps →
  ∃ p, (∀ rot, euclid steps beats rot = Some (rotate p (rot - indexOf p 1)))
       ∧ length p = Z.to_nat steps
       ∧ occurrences 1 p = Z.to_nat beats
       ∧ occurrences 0 p = Z.to_nat (steps - beats).
Proof.
  intros Hb. destruct (euclid_pattern steps beats Hb) as (p & Hp & Hμ).
  exists p. split; [done|].
  pose proof (Hμ _ additive_length) as Hlen.
  pose proof (Hμ _ (additive_occurrences 1)) as Hone.
  pose proof (Hμ _ (additive_occurrences 0)) as Hzero.
  cbv beta in Hlen, Hone, Hzero. cbn [length] in Hlen.
  change (occurrences 1 [0]) with 0%nat in Hone.
  change (occurrences 1 [1]) with 1%nat in Hone.
  change (occurrences 0 [0]) with 1%nat in Hzero.
  change (occurrences 0 [1]) with 0%nat in Hzero.
  lia.
Qed.

(** X4. For [0 ≤ beats ≤ steps] the rhythm of [euclid] holds nothing but
    0 and 1, and with at least one beat it has a 1 at the position of the
    rotation, taken modulo [steps]: without rotation it starts with 1. *)
Theorem euclid_alignment (steps beats rot : Z) :
  1 ≤ beats ≤ steps →
  ∃ p, euclid steps beats rot = Some p
       ∧ Forall binary p
       ∧ p !! Z.to_nat (rot `mod` steps) = Some 1.
Proof.
  intros Hb.
  destruct (euclid_pattern_counts steps beats ltac:(lia))
    as (q & Hq & Hlen & Hone & Hzero).
  destruct (indexOf_lookup 1 q ltac:(lia)) as (i & Hi & Hqi).
  pose proof (lookup_lt_Some _ _ _ Hqi) as Hlt.
  pose proof (Z.mod_pos_bound rot steps ltac:(lia)) as Hrot.
  rewrite Hq, Hi. eexists. split_and!; [reflexivity|..].
  - apply occurrences_binary.
    rewrite !occurrences_rotate, rotate_length. lia.
  - rewrite rotate_lookup by lia.
    rewrite Hlen, !Z2Nat.id by lia.
    rewrite Zminus_mod_idemp_l.
    replace (rot - (rot - Z.of_nat i)) with (Z.of_nat i) by lia.
    rewrite Z.mod_small by lia. by rewrite Nat2Z.id.
Qed.

Lemma euclid_alignment_witness :
  ∃ p, euclid 7 3 9 = Some p ∧ Forall binary p ∧ p !! 2%nat = Some 1.
Proof. apply (euclid_alignment 7 3 9). lia. Defined.

(** X5. Without beats [euclid] returns [steps] zeros and with as many
    beats as steps it returns [steps] ones, whatever the rotation. *)
Theorem euclid_extremes (steps rot : Z) :
  0 ≤ steps →
  euclid steps 0 rot = Some (replicate (Z.to_nat steps) 0)
  ∧ euclid steps steps rot = Some (replicate (Z.to_nat steps) 1).
Proof.
  intros Hs. split.
  - destruct (euclid_pattern_counts steps 0 ltac:(lia))
      as (q & -> & Hlen & Hone & Hzero).
    f_equal. rewrite <- Hlen, <- (rotate_length q (rot - indexOf q 1)).
    apply occurrences_all. rewrite occurrences_rotate, rotate_length. lia.
  - destruct (euclid_pattern_counts steps steps ltac:(lia))
      as (q & -> & Hlen & Hone & Hzero).
    f_equal. rewrite <- Hlen, <- (rotate_length q (rot - indexOf q 1)).
    apply occurrences_all. rewrite occurrences_rotate, rotate_length. lia.
Qed.

Lemma euclid_extremes_witness :
  euclid 5 0 2 = Some [0; 0; 0; 0; 0] ∧ euclid 5 5 2 = Some [1; 1; 1; 1; 1].
Proof. apply (euclid_extremes 5 2). lia. Defined.

Lemma rotate_zero {A} (a : list A) : rotate a 0 = a.
Proof.
  unfold rotate. change (- 0) with 0. rewrite Zmod_0_l.
  cbn [Z.to_nat drop take]. apply app_nil_r.
Qed.

Lemma concat_replicate_singleton {A} (n : nat) (x : A) :
  concat (replicate n [x]) = replicate n x.
Proof. induction n as [|n IH]; [done|]. cbn. by rewrite IH. Qed.

(** X6. With more beats than steps (and at least two beats) [euclid]
    does not return [steps] values: it returns [beats] ones, followed by a
    single zero unless [beats] divides [steps - beats], rotated by the
    rotation. *)
Theorem euclid_more_beats_than_steps (steps beats rot : Z) :
  1 < beats → steps < beats →
  euclid steps beats rot
  = Some (rotate (replicate (Z.to_nat beats) 1
                  ++ (if Z.rem (steps - beats) beats =? 0 then [] else [0]))
            rot).
Proof.
  intros Hb Hs. unfold euclid. cbn [pattern counts remainders app].
  destruct (Z.to_nat beats) as [|fuel] eqn:Hfuel; [lia|].
  cbn [euclid_while pattern counts remainders app].
  change (get [beats] 0) with (Some beats).
  cbn [greater_than_one default from_option id].
  destruct (Z.ltb_spec 1 beats) as [_|?]; [|lia].
  assert (euclid_while fuel
            {| pattern := []; counts := [(steps - beats) `div` beats];
               remainders := [beats; Z.rem (steps - beats) beats] |}
            (0 + 1) beats
          = Some ({| pattern := []; counts := [(steps - beats) `div` beats];
                     remainders := [beats; Z.rem (steps - beats) beats] |},
                  1, beats)) as ->.
  { pose proof (Z.rem_nonpos (steps - beats) beats ltac:(lia) ltac:(lia)).
    destruct fuel; cbn [euclid_while pattern counts remainders];
      change (get [beats; Z.rem (steps - beats) beats] (0 + 1))
        with (Some (Z.rem (steps - beats) beats));
      cbn [greater_than_one];
      by destruct (Z.ltb_spec 1 (Z.rem (steps - beats) beats)); [lia|]. }
  cbn [mbind option_bind pattern counts remainders app].
  rewrite build_expand by (cbn; lia).
  cbn [mbind option_bind extend pattern counts remainders app].
  change (Z.to_nat (1 + 2)) with 3%nat.
  rewrite !expand_step. cbn [lookup list_lookup loop_bound not_zero expand].
  assert ((steps - beats) `div` beats < 0) by (apply Z.div_lt_upper_bound; lia).
  replace (Z.to_nat ((steps - beats) `div` beats)) with O by lia.
  destruct (Z.eqb_spec beats 0) as [?|_]; [lia|].
  cbn [replicate concat negb app]. rewrite concat_replicate_singleton.
  assert (indexOf (replicate (Z.to_nat beats) 1
                   ++ (if negb (Z.rem (steps - beats) beats =? 0)
                       then [0] else [])) 1 = 0) as ->.
  { rewrite Hfuel. reflexivity. }
  rewrite Z.sub_0_r. rewrite Hfuel.
  by destruct (Z.rem (steps - beats) beats =? 0).
Qed.

Lemma euclid_more_beats_than_steps_witness :
  euclid 3 5 0 = Some (rotate [1; 1; 1; 1; 1; 0] 0).
Proof. apply (euclid_more_beats_than_steps 3 5 0); lia. Defined.

(** ** The fast Euclidean rhythm: proofs *)

(** A loop whose body pushes one rhythm value per turn pushes [n] of
    them in [n] turns. *)
Lemma for_loop_binary {D} (body : Z → list Z * D → list Z * D) :
  (∀ i arr d, ∃ b d', body i (arr, d) = (arr ++ [b], d') ∧ binary b) →
  ∀ (n : nat) (i : Z) (arr : list Z) (d : D),
    ∃ suffix d', for_loop n i body (arr, d) = (arr ++ suffix, d')
                 ∧ length suffix = n ∧ Forall binary suffix.
Proof.
  intros Hbody. induction n as [|n IH]; intros i arr d; cbn [for_loop].
  - exists [], d. by rewrite app_nil_r.
  - destruct (Hbody i arr d) as (b & d' & -> & Hb).
    destruct (IH (i + 1) (arr ++ [b]) d') as (suffix & d'' & -> & Hlen & Hs).
    exists (b :: suffix), d''. rewrite <- app_assoc.
    split_and!; [done|cbn; lia|by constructor].
Qed.

Lemma floor_zero_times (q : spec_float) :
  strict_differs (Math_floor (SFmul 53 1024 (binary64 0) q)) (Integer (-1))
  = true.
Proof. by destruct q. Qed.

Lemma rotate_Forall {A} (P : A → Prop) (a : list A) (r : Z) :
  Forall P a → Forall P (rotate a r).
Proof.
  intros Ha. unfold rotate. apply Forall_app.
  split; [by apply Forall_drop|by apply Forall_take].
Qed.

Lemma fastEuclid_rotation (s h r : Z) :
  fastEuclid s h r
  = if negb (r =? 0) then rotate (fastEuclid s h 0) r else fastEuclid s h 0.
Proof.
  unfold fastEuclid. cbv zeta. by destruct (for_range _ _ _ _).
Qed.

Lemma fastEuclid_unrotated (s h : Z) :
  length (fastEuclid s h 0) = Z.to_nat s
  ∧ Forall binary (fastEuclid s h 0)
  ∧ (1 ≤ s → head (fastEuclid s h 0) = Some 1).
Proof.
  unfold fastEuclid. cbv zeta.
  match goal with |- context [for_range 0 s ?b _] => set (body := b) end.
  assert (∀ i arr d, ∃ b d', body i (arr, d) = (arr ++ [b], d') ∧ binary b)
    as Hbody.
  { intros i arr d. eexists _, _. split; [reflexivity|].
    destruct (strict_differs _ _); [by right|by left]. }
  unfold for_range. rewrite Z.sub_0_r. cbn [Z.eqb negb].
  destruct (Z.to_nat s) as [|n] eqn:Hn.
  - cbn [for_loop]. split_and!; [done|constructor|lia].
  - cbn [for_loop].
    destruct (Hbody 0 [] (Integer (-1))) as (b & d0 & Hb0 & _).
    assert (b = 1) as ->.
    { unfold body in Hb0. rewrite floor_zero_times in Hb0.
      by injection Hb0 as <- _. }
    rewrite Hb0.
    destruct (for_loop_binary body Hbody n (0 + 1) ([] ++ [1]) d0)
      as (suffix & d' & -> & Hlen & Hs).
    split_and!; [cbn; lia| |done].
    constructor; [by right|done].
Qed.

(** X7. [fastEuclid] returns [s] values, each 0 or 1; for [s ≥ 1] the
    unrotated rhythm starts with 1, so that every rhythm it returns holds
    at least one 1, whatever the number of beats. *)
Theorem fastEuclid_shape (s h r : Z) :
  length (fastEuclid s h r) = Z.to_nat s
  ∧ Forall binary (fastEuclid s h r)
  ∧ (1 ≤ s → head (fastEuclid s h 0) = Some 1
             ∧ (0 < occurrences 1 (fastEuclid s h r))%nat).
Proof.
  destruct (fastEuclid_unrotated s h) as (Hlen & Hbits & Hhead).
  rewrite (fastEuclid_rotation s h r).
  split_and!.
  - destruct (negb (r =? 0)); by rewrite ?rotate_length.
  - destruct (negb (r =? 0)); by try apply rotate_Forall.
  - intros Hs. specialize (Hhead Hs). split; [done|].
    assert (0 < occurrences 1 (fastEuclid s h 0))%nat.
    { destruct (fastEuclid s h 0) as [|x arr]; [done|]. injection Hhead as ->.
      rewrite occurrences_cons. case_decide; [lia|done]. }
    destruct (negb (r =? 0)); by rewrite ?occurrences_rotate.
Qed.

Lemma fastEuclid_shape_witness :
  head (fastEuclid 8 0 0) = Some 1
  ∧ (0 < occurrences 1 (fastEuclid 8 0 3))%nat.
Proof.
  destruct (fastEuclid_shape 8 0 3) as (_ & _ & H). split.
  - apply (proj2 (proj2 (fastEuclid_shape 8 0 0))). lia.
  - apply H. lia.
Defined.

(** ** The hexadecimal rhythm: proofs *)

Lemma foldl_append {A B} (f : B → list A) (l : list B) (acc : list A) :
  foldl (λ a c, a ++ f c) acc l = acc ++ (l ≫= f).
Proof.
  revert acc. induction l as [|c l IH]; intros acc; cbn.
  - by rewrite app_nil_r.
  - by rewrite IH, app_assoc.
Qed.

Lemma hexBeat_bind (hex : string) :
  hexBeat hex = String.list_ascii_of_string hex ≫= hexBeat_char.
Proof. unfold hexBeat. by rewrite foldl_append. Qed.

Lemma hexBeat_char_shape (c : ascii) :
  length (hexBeat_char c) = 4%nat
  ∧ Forall is_bit (hexBeat_char c)
  ∧ binary_value (hexBeat_char c) = default 0 (hex_value c).
Proof.
  destruct c as [[] [] [] [] [] [] [] []];
    (split_and!;
     [reflexivity
     |vm_compute; repeat (constructor; [(by left) || (by right)|]); constructor
     |reflexivity]).
Qed.

(** X8. [hexBeat] turns every character into four values, each 0 or 1,
    and a concatenation of strings into the concatenation of their
    rhythms. *)
Theorem hexBeat_shape (hex hex' : string) :
  length (hexBeat hex) = (4 * String.length hex)%nat
  ∧ Forall is_bit (hexBeat hex)
  ∧ hexBeat (hex +:+ hex') = hexBeat hex ++ hexBeat hex'.
Proof.
  rewrite !hexBeat_bind, list_ascii_app, bind_app.
  rewrite <- list_ascii_length.
  split_and!; [| |done].
  - induction (String.list_ascii_of_string hex) as [|c l IH]; [done|].
    cbn [mbind list_bind]. rewrite length_app, IH.
    destruct (hexBeat_char_shape c) as (-> & _). cbn [length]. lia.
  - induction (String.list_ascii_of_string hex) as [|c l IH]; [constructor|].
    cbn [mbind list_bind]. apply Forall_app. split; [|done].
    apply hexBeat_char_shape.
Qed.

(** X9. The four values that [hexBeat] gives for the [k]-th character
    spell, in binary, the value of that character as a hexadecimal digit
    of either case, and zero for any other character. *)
Theorem hexBeat_decode (hex : string) (k : nat) (c : ascii) :
  String.list_ascii_of_string hex !! k = Some c →
  binary_value (take 4 (drop (4 * k) (hexBeat hex))) = default 0 (hex_value c).
Proof.
  rewrite hexBeat_bind.
  revert k. induction (String.list_ascii_of_string hex) as [|c' l IH];
    intros k Hk; [done|].
  destruct (hexBeat_char_shape c') as (Hlen & _ & Hval).
  cbn [mbind list_bind]. destruct k as [|k].
  - injection Hk as ->. rewrite Nat.mul_0_r, drop_0.
    by rewrite take_app_length' by done.
  - replace (4 * S k)%nat with (length (hexBeat_char c') + 4 * k)%nat by lia.
    rewrite drop_app_add. by apply IH.
Qed.

Lemma hexBeat_decode_witness :
  binary_value (take 4 (drop 4 (hexBeat "9F"))) = 15.
Proof. apply (hexBeat_decode "9F" 1 "F"). reflexivity. Defined.

(** ** The Collatz walkers: proofs *)

Lemma collatz_while_power (k : nat) :
  ∀ (fuel : nat) (acc : list Z),
    (k ≤ fuel)%nat →
    collatz_while fuel (2 ^ Z.of_nat k) acc
    = Some (acc ++ reverse ((λ i, 2 ^ Z.of_nat i) <$> seq 0 k)).
Proof.
  induction k as [|k IH]; intros fuel acc Hfuel.
  - destruct fuel; cbn; by rewrite app_nil_r.
  - destruct fuel as [|fuel]; [lia|].
    assert (2 ^ Z.of_nat (S k) = 2 ^ Z.of_nat k * 2) as Hpow.
    { rewrite Nat2Z.inj_succ, Z.pow_succ_r by lia. lia. }
    assert (0 < 2 ^ Z.of_nat k) by (apply Z.pow_pos_nonneg; lia).
    cbn [collatz_while].
    destruct (Z.eqb_spec (2 ^ Z.of_nat (S k)) 1) as [?|_]; [lia|].
    rewrite Hpow, Z.rem_mul, Z.div_mul by lia. cbn [Z.eqb negb].
    rewrite IH by lia.
    rewrite seq_S, fmap_app, reverse_app. cbn [fmap list_fmap reverse Nat.add].
    by rewrite <- app_assoc.
Qed.

(** X10. From a power of two [2^k] with [k ≥ 1], and with fuel for [k]
    turns, [collatz] returns the smaller powers of two in increasing
    order: 1, 2, ..., [2^(k-1)]. *)
Theorem collatz_power_of_two (fuel k : nat) :
  (1 ≤ k ≤ fuel)%nat →
  collatz fuel (2 ^ Z.of_nat k) = Some ((λ i, 2 ^ Z.of_nat i) <$> seq 0 k).
Proof.
  intros Hk. unfold collatz.
  assert (2 ^ 1 ≤ 2 ^ Z.of_nat k) by (apply Z.pow_le_mono_r; lia).
  rewrite Z.max_r by lia.
  rewrite collatz_while_power by lia. cbn [mbind option_bind app].
  by rewrite reverse_involutive.
Qed.

Lemma collatz_power_of_two_witness :
  collatz 10 (2 ^ Z.of_nat 4) = Some ((λ i, 2 ^ Z.of_nat i) <$> seq 0 4).
Proof. apply (collatz_power_of_two 10 4). lia. Defined.

Lemma collatz_next_step (n : Z) :
  (if negb (Z.rem n 2 =? 0) then n * 3 + 1 else n `div` 2) = collatz_next n.
Proof.
  unfold collatz_next. rewrite Zeven_mod.
  assert (Z.rem n 2 = 0 ↔ n `mod` 2 = 0) as Hiff.
  { rewrite Z.rem_divide, Z.mod_divide by lia. done. }
  destruct (Z.eqb_spec (Z.rem n 2) 0) as [Hr|Hr],
           (Z.eqb_spec (n `mod` 2) 0) as [Hm|Hm]; cbn [negb];
    first [lia | tauto].
Qed.

(** When the loop exits it has pushed a Collatz walk from [n] that stops
    at the first 1. *)
Lemma collatz_while_walk (fuel : nat) :
  ∀ (n : Z) (acc r : list Z),
    collatz_while fuel n acc = Some r →
    ∃ walk, r = acc ++ walk
            ∧ collatz_walk n walk
            ∧ (n ≠ 1 → last walk = Some 1)
            ∧ Forall (λ x, x ≠ 1) (removelast walk).
Proof.
  assert (∀ n acc, n = 1 →
            ∃ walk : list Z, acc = acc ++ walk ∧ collatz_walk n walk
              ∧ (n ≠ 1 → last walk = Some 1)
              ∧ Forall (λ x, x ≠ 1) (removelast walk)) as Hstop.
  { intros n acc ->. exists []. by rewrite app_nil_r. }
  induction fuel as [|fuel IH]; intros n acc r; cbn [collatz_while];
    destruct (Z.eqb_spec n 1) as [Hn|Hn]; try done.
  - intros [= <-]. by apply Hstop.
  - intros [= <-]. by apply Hstop.
  - rewrite collatz_next_step. intros Hr.
    destruct (IH _ _ _ Hr) as (walk & -> & Hwalk & Hlast & Hnot).
    exists (collatz_next n :: walk). rewrite <- app_assoc.
    split_and!; [done|done|..].
    + intros _. destruct walk as [|y walk].
      * cbn. destruct (decide (collatz_next n = 1)) as [->|Hne]; [done|].
        by specialize (Hlast Hne).
      * rewrite last_cons.
        destruct (decide (collatz_next n = 1)) as [He|Hne].
        -- rewrite He in Hwalk. destruct fuel; cbn in Hr; rewrite He in Hr;
             cbn in Hr; injection Hr as Hr;
             apply (f_equal length) in Hr;
             rewrite !length_app in Hr; cbn in Hr; lia.
        -- by rewrite (Hlast Hne).
    + destruct walk as [|y walk]; [constructor|].
      cbn [removelast]. constructor; [|done].
      intros He. destruct fuel; cbn in Hr; rewrite He in Hr;
        cbn in Hr; injection Hr as Hr;
        apply (f_equal length) in Hr;
        rewrite !length_app in Hr; cbn in Hr; lia.
Qed.

Lemma tail_reverse {A} (l : list A) : tail (reverse l) = reverse (removelast l).
Proof.
  destruct l as [|x l _] using rev_ind; [done|].
  by rewrite reverse_snoc, removelast_last.
Qed.

(** X11. When [collatz] returns, the list read backwards is the Collatz
    walk from the start value (raised to 2 when it is smaller): every
    element is the successor of the one after it, the list starts with the
    1 at which the walk stops, and holds no other 1. *)
Theorem collatz_walk_to_one (fuel : nat) (n : Z) (l : list Z) :
  collatz fuel n = Some l →
  head l = Some 1
  ∧ collatz_walk (Z.max 2 n) (reverse l)
  ∧ Forall (λ x, x ≠ 1) (tail l).
Proof.
  unfold collatz.
  destruct (collatz_while fuel (Z.max 2 n) []) as [r|] eqn:Hr; [|done].
  cbn [mbind option_bind]. intros [= <-].
  destruct (collatz_while_walk _ _ _ _ Hr) as (walk & -> & Hwalk & Hlast & Hnot).
  cbn [app]. rewrite head_reverse, reverse_involutive, tail_reverse.
  split_and!; [apply Hlast; lia|done|by apply Forall_reverse].
Qed.

Lemma collatz_walk_to_one_witness :
  head [1; 2; 4; 8; 16; 5; 10; 3; 6] = Some 1
  ∧ collatz_walk (Z.max 2 12) (reverse [1; 2; 4; 8; 16; 5; 10; 3; 6])
  ∧ Forall (λ x, x ≠ 1) (tail [1; 2; 4; 8; 16; 5; 10; 3; 6]).
Proof. apply (collatz_walk_to_one 20 12). vm_compute. reflexivity. Defined.

Lemma bigCollatz_while_collatz (fuel : nat) :
  ∀ (n : Z) (acc : list Z),
    1 ≤ n →
    bigCollatz_while fuel n (toFixed <$> acc)
    = fmap (M:=list) toFixed <$> collatz_while fuel n acc.
Proof.
  induction fuel as [|fuel IH]; intros n acc Hn;
    cbn [bigCollatz_while collatz_while];
    destruct (Z.ltb_spec 1 n), (Z.eqb_spec n 1); try lia; try done.
  pose proof (Z.rem_bound_pos n 2 ltac:(lia) ltac:(lia)) as Hrem.
  assert (n `div` 2 * 2 ≤ n) by (pose proof (Z.mul_div_le n 2); lia).
  assert (1 ≤ n `div` 2) by (apply Z.div_le_lower_bound; lia).
  destruct (Z.eqb_spec (Z.rem n 2) 1), (Z.eqb_spec (Z.rem n 2) 0);
    try lia; cbn [negb].
  - rewrite <- IH by lia. by rewrite fmap_app.
  - rewrite <- IH by lia. by rewrite fmap_app.
Qed.

(** X12. From a start value of at least 2, [bigCollatz] returns the
    decimal strings of what [collatz] returns, with the same fuel. From a
    smaller one it returns the empty list, where [collatz] starts from 2
    and returns the single value 1. *)
Theorem bigCollatz_collatz (fuel : nat) (n : Z) :
  (2 ≤ n → bigCollatz fuel n = fmap (M:=list) toFixed <$> collatz fuel n)
  ∧ (n ≤ 1 → bigCollatz fuel n = Some []
             ∧ collatz (S fuel) n = Some [1]).
Proof.
  split.
  - intros Hn. unfold bigCollatz, collatz. rewrite Z.max_r by lia.
    change (@nil string) with (toFixed <$> @nil Z).
    rewrite (bigCollatz_while_collatz fuel n []) by lia.
    destruct (collatz_while fuel n []); [|done].
    cbn. by rewrite fmap_reverse.
  - intros Hn. split.
    + unfold bigCollatz.
      by destruct fuel; cbn [bigCollatz_while];
        (destruct (Z.ltb_spec 1 n); [lia|]).
    + unfold collatz. rewrite Z.max_l by lia. by destruct fuel.
Qed.

Lemma bigCollatz_collatz_witness :
  bigCollatz 20 12 = fmap (M:=list) toFixed <$> collatz 20 12
  ∧ bigCollatz 20 0 = Some [] ∧ collatz 21 0 = Some [1].
Proof.
  split.
  - apply (proj1 (bigCollatz_collatz 20 12)). lia.
  - apply (proj2 (bigCollatz_collatz 20 0)). lia.
Defined.

(** ** Lindenmayer expansion: proofs *)

Lemma linden_fold (rules : gmap string (list Z)) (axiom : list Z) :
  ∀ acc,
    foldl (λ res char,
             match rules !! toFixed char with
             | Some rule => res ++ rule
             | None => res ++ [char]
             end) acc axiom
    = acc ++ (axiom ≫= linden_symbol rules).
Proof.
  induction axiom as [|char axiom IH]; intros acc; cbn [foldl mbind list_bind].
  - by rewrite app_nil_r.
  - rewrite IH, app_assoc. unfold linden_symbol.
    by destruct (rules !! toFixed char).
Qed.

Lemma linden_generation_bind (rules : gmap string (list Z)) (axiom : list Z) :
  linden_generation rules axiom = axiom ≫= linden_symbol rules.
Proof. unfold linden_generation. by rewrite linden_fold. Qed.

Lemma linden_generation_app (rules : gmap string (list Z)) (a b : list Z) :
  linden_generation rules (a ++ b)
  = linden_generation rules a ++ linden_generation rules b.
Proof. by rewrite !linden_generation_bind, bind_app. Qed.

Lemma linden_loop (rules : gmap string (list Z)) (n : nat) :
  ∀ (i : Z) (axiom : list Z) (res : option (list Z)),
    for_loop n i
      (λ _ (st : list Z * option (list Z)),
         let res := linden_generation rules st.1 in (res, Some res))
      (axiom, res)
    = (Nat.iter n (linden_generation rules) axiom,
       match n with
       | O => res
       | S _ => Some (Nat.iter n (linden_generation rules) axiom)
       end).
Proof.
  induction n as [|n IH]; intros i axiom res; [done|].
  cbn [for_loop fst]. rewrite IH, <- Nat.iter_succ_r.
  by destruct n.
Qed.

Lemma linden_iter (rules : gmap string (list Z)) (axiom : list Z) (n : Z) :
  1 ≤ n →
  linden axiom n rules
  = Some (Nat.iter (Z.to_nat n) (linden_generation rules) axiom).
Proof.
  intros Hn. unfold linden, for_range. rewrite linden_loop, Z.sub_0_r.
  cbn [snd]. destruct (Z.to_nat n) eqn:Hz; [lia|done].
Qed.

(** X13. Without a generation to run ([iteration ≤ 0]) [linden] returns
    [undefined]. Otherwise generations compose: [m + n] generations are
    [m] generations followed by [n] more. *)
Theorem linden_generations (axiom : list Z) (rules : gmap string (list Z)) :
  (∀ n, n ≤ 0 → linden axiom n rules = None)
  ∧ (∀ m n, 1 ≤ m → 1 ≤ n →
       linden axiom (m + n) rules
       = linden axiom m rules ≫= λ a, linden a n rules).
Proof.
  split.
  - intros n Hn. unfold linden, for_range.
    by replace (Z.to_nat (n - 0)) with O by lia.
  - intros m n Hm Hn. rewrite !linden_iter by lia. cbn [mbind option_bind].
    rewrite linden_iter by lia. f_equal.
    rewrite Z2Nat.inj_add, Nat.add_comm by lia. apply Nat.iter_add.
Qed.

Lemma linden_generations_witness :
  linden [1] (2 + 1) linden_rules
  = linden [1] 2 linden_rules ≫= λ a, linden a 1 linden_rules.
Proof. apply (proj2 (linden_generations [1] linden_rules) 2 1); lia. Defined.

Lemma linden_iter_app (rules : gmap string (list Z)) (n : nat) :
  ∀ a b,
    Nat.iter n (linden_generation rules) (a ++ b)
    = Nat.iter n (linden_generation rules) a
      ++ Nat.iter n (linden_generation rules) b.
Proof.
  induction n as [|n IH]; intros a b; [done|].
  rewrite !Nat.iter_succ. by rewrite IH, linden_generation_app.
Qed.

(** X14. The expansion is context free: for at least one generation, the
    expansion of a concatenation is the concatenation of the expansions.
    Without rules it returns the axiom. *)
Theorem linden_context_free (a b : list Z) (n : Z)
    (rules : gmap string (list Z)) :
  1 ≤ n →
  (∃ x y, linden a n rules = Some x ∧ linden b n rules = Some y
          ∧ linden (a ++ b) n rules = Some (x ++ y))
  ∧ linden a n ∅ = Some a.
Proof.
  intros Hn. rewrite !linden_iter by done. split.
  - eexists _, _. split_and!; [done..|]. by rewrite linden_iter_app.
  - f_equal. induction (Z.to_nat n) as [|k IH]; [done|].
    rewrite Nat.iter_succ, IH, linden_generation_bind.
    clear. induction a as [|x a IH]; [done|].
    cbn [mbind list_bind]. rewrite IH. unfold linden_symbol.
    by rewrite lookup_empty.
Qed.

Lemma linden_context_free_witness :
  (∃ x y, linden [1] 3 linden_rules = Some x
          ∧ linden [0; 1] 3 linden_rules = Some y
          ∧ linden ([1] ++ [0; 1]) 3 linden_rules = Some (x ++ y))
  ∧ linden [1] 3 ∅ = Some [1].
Proof. apply (linden_context_free [1] [0; 1] 3 linden_rules). lia. Defined.

Lemma linden_default_generation (l : list Z) :
  Forall binary l →
  Forall binary (linden_generation linden_rules l)
  ∧ occurrences 1 (linden_generation linden_rules l) = length l
  ∧ length (linden_generation linden_rules l)
    = (length l + occurrences 1 l)%nat.
Proof.
  rewrite linden_generation_bind.
  induction 1 as [|x l [-> | ->] _ (IHb & IHo & IHl)];
    [by split_and!; [constructor|..]|..]; cbn [mbind list_bind].
  - change (linden_symbol linden_rules 0) with [1].
    rewrite occurrences_cons. cbn [app length].
    rewrite !occurrences_cons, IHo, IHl.
    split_and!; [constructor; [by right|done]|..];
      repeat case_decide; lia.
  - change (linden_symbol linden_rules 1) with [1; 0].
    rewrite occurrences_cons. cbn [app length].
    rewrite !occurrences_cons, IHo, IHl.
    split_and!; [constructor; [by right|constructor; [by left|done]]|..];
      repeat case_decide; lia.
Qed.

Lemma linden_default_iter (n : nat) :
  let l := Nat.iter n (linden_generation linden_rules) [1] in
  Forall binary l
  ∧ Z.of_nat (length l) = fibonacci_number (n + 2)
  ∧ Z.of_nat (occurrences 1 l) = fibonacci_number (n + 1).
Proof.
  cbv zeta. induction n as [|n (IHb & IHl & IHo)].
  - split_and!; [constructor; [by right|constructor]|done..].
  - rewrite Nat.iter_succ.
    destruct (linden_default_generation _ IHb) as (Hb & Ho & Hl).
    split_and!; [done|..].
    + rewrite Hl, Nat2Z.inj_add, IHl, IHo.
      unfold fibonacci_number.
      replace (S n + 2)%nat with (S (S (n + 1))) by lia.
      rewrite recurrence_term_step.
      replace (S (n + 1)) with (n + 2)%nat by lia. lia.
    + rewrite Ho, IHl. f_equal. lia.
Qed.

(** X15. With the default rules (1 gives 1, 0 and 0 gives 1) the axiom
    [1] grows along the Fibonacci numbers: after [n ≥ 1] generations the
    sequence holds only 0 and 1, has F(n+2) elements and F(n+1) of them
    are 1. *)
Theorem linden_fibonacci (n : Z) :
  1 ≤ n →
  ∃ l, linden [1] n linden_rules = Some l
       ∧ Forall binary l
       ∧ Z.of_nat (length l) = fibonacci_number (Z.to_nat n + 2)
       ∧ Z.of_nat (occurrences 1 l) = fibonacci_number (Z.to_nat n + 1).
Proof.
  intros Hn. rewrite linden_iter by done. eexists. split; [done|].
  apply linden_default_iter.
Qed.

Lemma linden_fibonacci_witness :
  ∃ l, linden [1] 3 linden_rules = Some l
       ∧ Forall binary l
       ∧ Z.of_nat (length l) = fibonacci_number (Z.to_nat 3 + 2)
       ∧ Z.of_nat (occurrences 1 l) = fibonacci_number (Z.to_nat 3 + 1).
Proof. apply (linden_fibonacci 3). lia. Defined.
